(** * Osmosify: the word-practice engine

    A shallow embedding of the two parts of the application that carry
    the logic of a practice session:

    - [src/lib/speech.ts]: the word matcher [checkWordMatch] with its
      homophone table and edit distance, and the two listening sessions
      [startListening] and [startContinuousListening];
    - [src/app/child/[id]/flashcards.tsx]: the flashcard screen, its
      session state and the handlers [handleAnswer] and [handleRestart].

    Strings are sequences of code units; the embedding covers the code
    units below 256 (Latin-1), for which whitespace, punctuation and case
    mapping are written out in full. *)

From stdpp Require Import gmap strings list.
From Stdlib Require Import ZArith Lia Ascii.

Open Scope string_scope.
Open Scope list_scope.
Open Scope nat_scope.

(** ** JavaScript string primitives used by the matcher *)

Module JsString.

(** [\s] of a regular expression and the set removed by [trim]:
    TAB, LF, VT, FF, CR, SPACE and NO-BREAK SPACE below 256. *)
Definition isWhiteSpace (c : ascii) : bool :=
  let n := N_of_ascii c in
  ((9 <=? n) && (n <=? 13) || (n =? 32) || (n =? 160))%N.

(** One code unit of [toLowerCase]: A-Z and the Latin-1 capitals
    U+00C0..U+00DE (the multiplication sign U+00D7 apart) move up by 32. *)
Definition lowerChar (c : ascii) : ascii :=
  let n := N_of_ascii c in
  if ((65 <=? n) && (n <=? 90) || (192 <=? n) && (n <=? 222) && negb (n =? 215))%N
  then ascii_of_N (n + 32) else c.

Fixpoint toLowerCase (s : string) : string :=
  match s with
  | EmptyString => EmptyString
  | String c s' => String (lowerChar c) (toLowerCase s')
  end.

(** [s.replace(/[...]/g, '')] for a character class [cls]. *)
Fixpoint removeAll (cls : ascii -> bool) (s : string) : string :=
  match s with
  | EmptyString => EmptyString
  | String c s' => if cls c then removeAll cls s' else String c (removeAll cls s')
  end.

Fixpoint trimStart (s : string) : string :=
  match s with
  | EmptyString => EmptyString
  | String c s' => if isWhiteSpace c then trimStart s' else s
  end.

(** [trimEnd] keeps a character when it is not whitespace or when
    something is left after it. *)
Fixpoint trimEnd (s : string) : string :=
  match s with
  | EmptyString => EmptyString
  | String c s' =>
      match trimEnd s' with
      | EmptyString => if isWhiteSpace c then EmptyString else String c EmptyString
      | rest => String c rest
      end
  end.

Definition trim (s : string) : string := trimEnd (trimStart s).

(** [s.split(/\s+/)]: [tok] is the token read so far, [inrun] tells
    that the previous character was whitespace. The empty string gives
    one empty token, leading or trailing whitespace an empty token at
    that end. *)
Fixpoint split_go (tok : string) (inrun : bool) (s : string) : list string :=
  match s with
  | EmptyString => [tok]
  | String c s' =>
      if isWhiteSpace c
      then (if inrun then split_go EmptyString true s'
            else tok :: split_go EmptyString true s')
      else split_go (String.append tok (String c EmptyString)) false s'
  end.

Definition split_ws (s : string) : list string := split_go EmptyString false s.

(** [s.charAt(i)]: [None] stands for the empty string returned out of range. *)
Definition charAt (s : string) (i : nat) : option ascii := String.get i s.

(** [arr[i] = v] on an array: in range it overwrites, at or past the end
    it extends the array, filling the gap with [hole]. *)
Definition arr_set {A} (hole : A) (i : nat) (v : A) (l : list A) : list A :=
  if decide (i < length l) then <[i := v]> l
  else l ++ replicate (i - length l) hole ++ [v].

(** [Math.floor(n * 0.35)] for an integer [n], in IEEE-754 binary64.
    The literal [0.35] denotes the double [mantissa_035 / 2^54], the
    product is rounded to 53 significant bits, ties to even, and
    [Math.floor] takes the integer part of the rounded product. *)
Definition mantissa_035 : Z := 6305039478318694.

Definition round53 (p : Z) : Z :=
  let k := (Z.log2 p + 1)%Z in
  if (k <=? 53)%Z then p
  else
    let sh := (k - 53)%Z in
    let q := Z.shiftr p sh in
    let r := (p - Z.shiftl q sh)%Z in
    let half := Z.shiftl 1 (sh - 1) in
    let q' := if (half <? r)%Z || ((r =? half)%Z && Z.odd q) then (q + 1)%Z else q in
    Z.shiftl q' sh.

Definition floor_mul_035 (n : Z) : Z := Z.shiftr (round53 (n * mantissa_035)) 54.

End JsString.

(** ** [src/lib/speech.ts]: homophones, edit distance, [checkWordMatch] *)

Module Speech.
Import JsString.

Definition HOMOPHONES : list (list string) :=
  [ ["sight"; "site"; "cite"];
    ["their"; "there"; "they're"];
    ["to"; "too"; "two"];
    ["your"; "you're"];
    ["its"; "it's"];
    ["know"; "no"];
    ["knew"; "new"];
    ["knight"; "night"];
    ["knot"; "not"];
    ["write"; "right"; "rite"];
    ["read"; "red"];
    ["hear"; "here"];
    ["sea"; "see"];
    ["sun"; "son"];
    ["one"; "won"];
    ["be"; "bee"];
    ["by"; "buy"; "bye"];
    ["for"; "four"; "fore"];
    ["ate"; "eight"];
    ["wait"; "weight"] ].

(** The three nested loops that fill [homophoneMap], innermost first. *)
Definition addOther (word : string) (m : gmap string (gset string)) (other : string)
  : gmap string (gset string) :=
  if decide (other ≠ word) then alter (λ hs, hs ∪ {[ other ]}) word m else m.

Definition addWord (lowerGroup : list string) (m : gmap string (gset string))
    (word : string) : gmap string (gset string) :=
  let m1 := match m !! word with Some _ => m | None => <[word := ∅]> m end in
  foldl (addOther word) m1 lowerGroup.

Definition addGroup (m : gmap string (gset string)) (group : list string)
  : gmap string (gset string) :=
  let lowerGroup := toLowerCase <$> group in
  foldl (addWord lowerGroup) m lowerGroup.

Definition buildHomophoneMap (groups : list (list string)) : gmap string (gset string) :=
  foldl addGroup ∅ groups.

Definition homophoneMap : gmap string (gset string) := buildHomophoneMap HOMOPHONES.

Definition areHomophones (word1 word2 : string) : bool :=
  let lower1 := toLowerCase word1 in
  let lower2 := toLowerCase word2 in
  if decide (lower1 = lower2) then true
  else match homophoneMap !! lower1 with
       | Some homophones => bool_decide (lower2 ∈ homophones)
       | None => false
       end.

(** [levenshteinDistance]: the matrix is an array of rows. A row that
    is written exists, and a cell that is read has been written (see
    [cell_stage_above] and [setCell_stage] below), so the defaults of
    [alter] and [!!!] are never used. *)
Definition setCell (i j v : nat) (matrix : list (list nat)) : list (list nat) :=
  alter (arr_set 0 j v) i matrix.

Definition cell (matrix : list (list nat)) (i j : nat) : nat :=
  (matrix !!! i) !!! j.

(** [for (let i = 0; i <= b.length; i++) matrix[i] = [i]] *)
Definition initRows (b : string) : list (list nat) :=
  foldl (λ matrix i, arr_set [] i [i] matrix) [] (seq 0 (S (String.length b))).

(** [for (let j = 0; j <= a.length; j++) matrix[0][j] = j] *)
Definition initFirstRow (a : string) (matrix : list (list nat)) : list (list nat) :=
  foldl (λ matrix j, setCell 0 j j matrix) matrix (seq 0 (S (String.length a))).

Definition fillCell (a b : string) (i : nat) (matrix : list (list nat)) (j : nat)
  : list (list nat) :=
  if decide (charAt b (i - 1) = charAt a (j - 1))
  then setCell i j (cell matrix (i - 1) (j - 1)) matrix
  else setCell i j
         (Nat.min (Nat.min (cell matrix (i - 1) (j - 1) + 1)
                           (cell matrix i (j - 1) + 1))
                  (cell matrix (i - 1) j + 1)) matrix.

Definition fillRow (a b : string) (matrix : list (list nat)) (i : nat)
  : list (list nat) :=
  foldl (fillCell a b i) matrix (seq 1 (String.length a)).

Definition levenshteinMatrix (a b : string) : list (list nat) :=
  foldl (fillRow a b) (initFirstRow a (initRows b)) (seq 1 (String.length b)).

Definition levenshteinDistance (a b : string) : nat :=
  cell (levenshteinMatrix a b) (String.length b) (String.length a).

(** The character class of the two [replace] calls: full stop, comma,
    exclamation mark, question mark, apostrophe (039) and double quote
    (034). *)
Definition isPunctuation (c : ascii) : bool :=
  bool_decide (c ∈ ["."; ","; "!"; "?"; "039"; "034"]%char).

Definition clean (s : string) : string :=
  toLowerCase (trim (removeAll isPunctuation s)).

(** [for (const word of spokenWords) if (areHomophones(word, cleanTarget)) return true] *)
Fixpoint anyHomophone (spokenWords : list string) (cleanTarget : string) : bool :=
  match spokenWords with
  | [] => false
  | word :: rest =>
      if areHomophones word cleanTarget then true else anyHomophone rest cleanTarget
  end.

Definition maxAllowedDistance (cleanTarget : string) : Z :=
  Z.max 1 (floor_mul_035 (Z.of_nat (String.length cleanTarget))).

Definition checkWordMatch (spoken target : string) : bool :=
  let cleanSpoken := clean spoken in
  let cleanTarget := clean target in
  if decide (cleanSpoken = cleanTarget) then true
  else if areHomophones cleanSpoken cleanTarget then true
  else
    let spokenWords := split_ws cleanSpoken in
    if bool_decide (cleanTarget ∈ spokenWords) then true
    else if anyHomophone spokenWords cleanTarget then true
    else
      let distance := levenshteinDistance cleanSpoken cleanTarget in
      if (Z.of_nat distance <=? maxAllowedDistance cleanTarget)%Z then true
      else false.

(** *** Events of the recognizer and the callbacks of a listening session

    A [result] event carries a list of results; a result is an array of
    alternatives with an [isFinal] flag. Fields that may be missing or
    falsy are options. The confidence is passed through untouched. *)
Record alternative := Alternative {
  alt_transcript : option string;
  alt_confidence : option QArith_base.Q
}.

Record speechResult := SpeechResult {
  alternatives : list alternative;
  isFinal : bool
}.

Record RecognitionResult := mkRecognitionResult {
  transcript : string;
  confidence : QArith_base.Q;
  isMatch : bool
}.

Record MultiWordMatch := mkMultiWordMatch {
  match_word : string;
  index : nat;
  match_transcript : string;
  match_confidence : QArith_base.Q
}.

(** [x || ''] and [x || 0]: a missing field and the falsy values [''],
    [0] all give the default. *)
Definition transcriptOf (a : alternative) : string :=
  default EmptyString (alt_transcript a).

Definition confidenceOf (a : alternative) : QArith_base.Q :=
  default (QArith_base.Qmake 0 1) (alt_confidence a).

(** The last result and its first alternative, when both exist:
    [results[results.length - 1]] and [lastResult[0]], with the two
    early returns for a missing or empty array. *)
Definition lastAlternative (results : option (list speechResult))
  : option (speechResult * alternative) :=
  match results with
  | None => None
  | Some rs =>
      match last rs with
      | None => None
      | Some lastResult =>
          match alternatives lastResult with
          | [] => None
          | first :: _ => Some (lastResult, first)
          end
      end
  end.

(** What the recognizer can send to the registered listeners. *)
Inductive recognizerEvent :=
| ResultEvent (results : option (list speechResult))
| ErrorEvent (error : option string)
| EndEvent.

(** *** [startListening] *)

Inductive callback :=
| onMatch (r : RecognitionResult)
| onNoMatch (r : RecognitionResult)
| onError (error : string)
| onEnd.

(** The closure state behind the returned handle. [Inert] is the handle
    [{ stop: () => {}, updateTargetWord: () => {} }] of the two fallback
    paths, for which no listener was registered. *)
Inductive listener :=
| Inert
| Live (currentTarget : string) (stopped : bool).

(** How the call of [ExpoSpeechRecognition.start] went: the module is
    missing, [start] threw (with the message of the exception, if any),
    or it started. *)
Inductive startOutcome :=
| ModuleMissing
| StartThrew (message : option string)
| Started.

Definition startListening (outcome : startOutcome) (targetWord : string)
  : listener * list callback :=
  match outcome with
  | ModuleMissing => (Inert, [onError "Speech recognition not available"; onEnd])
  | StartThrew message =>
      (Inert,
       [onError (match message with
                 | Some m => if decide (m = EmptyString)
                             then "Failed to start recognition" else m
                 | None => "Failed to start recognition"
                 end); onEnd])
  | Started => (Live targetWord false, [])
  end.

Definition handleResult (currentTarget : string) (stopped : bool)
    (results : option (list speechResult)) : list callback :=
  if stopped then []
  else match lastAlternative results with
       | None => []
       | Some (lastResult, first) =>
           let transcript := transcriptOf first in
           let confidence := confidenceOf first in
           let isMatch := checkWordMatch transcript currentTarget in
           let result := mkRecognitionResult transcript confidence isMatch in
           if isMatch then [onMatch result]
           else if isFinal lastResult then [onNoMatch result]
           else []
       end.

(** One event delivered to the three listeners of the session. The
    listeners are run even after [stop] has removed the subscriptions:
    an event already on its way still finds the handler. *)
Definition deliver (l : listener) (e : recognizerEvent) : list callback :=
  match l with
  | Inert => []
  | Live currentTarget stopped =>
      match e with
      | ResultEvent results => handleResult currentTarget stopped results
      | ErrorEvent error =>
          if stopped then []
          else [onError (match error with
                         | Some m => if decide (m = EmptyString)
                                     then "Recognition error" else m
                         | None => "Recognition error"
                         end)]
      | EndEvent => if stopped then [] else [onEnd]
      end
  end.

Definition stop (l : listener) : listener :=
  match l with
  | Inert => Inert
  | Live currentTarget _ => Live currentTarget true
  end.

Definition updateTargetWord (l : listener) (newWord : string) : listener :=
  match l with
  | Inert => Inert
  | Live _ stopped => Live newWord stopped
  end.

(** Everything that can happen to a session once it exists: an event of
    the recognizer or a call of one of the two functions of the handle. *)
Inductive sessionInput :=
| Recognizer (e : recognizerEvent)
| CallStop
| CallUpdateTargetWord (newWord : string).

Definition sessionStep (l : listener) (i : sessionInput) : listener * list callback :=
  match i with
  | Recognizer e => (l, deliver l e)
  | CallStop => (stop l, [])
  | CallUpdateTargetWord newWord => (updateTargetWord l newWord, [])
  end.

(** The callbacks invoked, in order, by a sequence of inputs. *)
Fixpoint sessionRun (l : listener) (inputs : list sessionInput) : listener * list callback :=
  match inputs with
  | [] => (l, [])
  | i :: rest =>
      let '(l1, out1) := sessionStep l i in
      let '(l2, out2) := sessionRun l1 rest in
      (l2, out1 ++ out2)
  end.

(** *** [startContinuousListening] *)

Module Continuous.

Inductive callback :=
| onWordMatch (m : MultiWordMatch)
| onInterimResult (transcript : string)
| onError (error : string)
| onEnd
| onAllMatches (matches : list MultiWordMatch).

(** The closure state behind the returned handle; [Inert] as above. *)
Inductive session :=
| Inert
| Live (currentTargets : list string) (matchedIndices : gset nat) (stopped : bool).

(** The body of [currentTargets.forEach((word, index) => ...)]: a word
    whose index is in [matchedIndices] is skipped, otherwise the first
    spoken token that matches it pushes one match and breaks. *)
Fixpoint collectMatches (index : nat) (targets : list string)
    (matchedIndices : gset nat) (spoken : list string)
    (transcript : string) (confidence : QArith_base.Q) : list MultiWordMatch :=
  match targets with
  | [] => []
  | word :: rest =>
      let others :=
        collectMatches (S index) rest matchedIndices spoken transcript confidence in
      if bool_decide (index ∈ matchedIndices) then others
      else if existsb (λ s, checkWordMatch s word) spoken
           then mkMultiWordMatch word index transcript confidence :: others
           else others
  end.

(** [for (const match of allMatches) if (!matchedIndices.has(match.index)) ...] *)
Fixpoint fireMatches (allMatches : list MultiWordMatch) (matchedIndices : gset nat)
  : gset nat * list callback :=
  match allMatches with
  | [] => (matchedIndices, [])
  | m :: rest =>
      if bool_decide (index m ∈ matchedIndices) then fireMatches rest matchedIndices
      else
        let '(matched', out) := fireMatches rest ({[ index m ]} ∪ matchedIndices) in
        (matched', onWordMatch m :: out)
  end.

(** [userOnAllMatches] is the optional sixth argument of
    [startContinuousListening]; the model of the caller's function is
    the list of indices it hands to [markWordMatched] before it
    returns. *)
Definition handleResult (userOnAllMatches : option (list MultiWordMatch → list nat))
    (currentTargets : list string) (matchedIndices : gset nat)
    (results : option (list speechResult)) : gset nat * list callback :=
  match lastAlternative results with
  | None => (matchedIndices, [])
  | Some (_, first) =>
      let transcript := transcriptOf first in
      let confidence := confidenceOf first in
      let spoken := split_ws (toLowerCase transcript) in
      let allMatches :=
        collectMatches 0 currentTargets matchedIndices spoken transcript confidence in
      let '(matched1, out1) :=
        match allMatches, userOnAllMatches with
        | _ :: _, Some f =>
            (list_to_set (f allMatches) ∪ matchedIndices, [onAllMatches allMatches])
        | _, _ => (matchedIndices, [])
        end in
      let '(matched2, out2) := fireMatches allMatches matched1 in
      (matched2, onInterimResult transcript :: out1 ++ out2)
  end.

Definition startContinuousListening (outcome : startOutcome) (targetWords : list string)
  : session * list callback :=
  match outcome with
  | ModuleMissing => (Inert, [onError "Speech recognition not available"; onEnd])
  | StartThrew message =>
      (Inert,
       [onError (match message with
                 | Some m => if decide (m = EmptyString)
                             then "Failed to start recognition" else m
                 | None => "Failed to start recognition"
                 end); onEnd])
  | Started => (Live targetWords ∅ false, [])
  end.

(** What can happen to a session: a [result] or [error] event, an
    [end] event (after which the session restarts the recognizer,
    which may throw), and the calls of [stop], [updateTargetWords] and
    of a [markWordMatched] function kept by the caller. *)
Inductive input :=
| ResultIn (results : option (list speechResult))
| ErrorIn (error : option string)
| EndIn (restartThrows : bool)
| CallStop
| CallUpdateTargetWords (words : list string)
| CallMarkWordMatched (wordIndex : nat).

Definition step (userOnAllMatches : option (list MultiWordMatch → list nat))
    (s : session) (i : input) : session * list callback :=
  match s with
  | Inert => (Inert, [])
  | Live currentTargets matchedIndices stopped =>
      match i with
      | ResultIn results =>
          if stopped then (s, [])
          else
            let '(matched', out) :=
              handleResult userOnAllMatches currentTargets matchedIndices results in
            (Live currentTargets matched' stopped, out)
      | ErrorIn error =>
          if stopped then (s, [])
          else (s, [onError (match error with
                             | Some m => if decide (m = EmptyString)
                                         then "Recognition error" else m
                             | None => "Recognition error"
                             end)])
      | EndIn restartThrows =>
          if stopped then (s, [])
          else if restartThrows then (s, [onEnd]) else (s, [])
      | CallStop => (Live currentTargets matchedIndices true, [])
      | CallUpdateTargetWords words => (Live words ∅ stopped, [])
      | CallMarkWordMatched wordIndex =>
          (Live currentTargets ({[ wordIndex ]} ∪ matchedIndices) stopped, [])
      end
  end.

Fixpoint run (userOnAllMatches : option (list MultiWordMatch → list nat))
    (s : session) (inputs : list input) : session * list callback :=
  match inputs with
  | [] => (s, [])
  | i :: rest =>
      let '(s1, out1) := step userOnAllMatches s i in
      let '(s2, out2) := run userOnAllMatches s1 rest in
      (s2, out1 ++ out2)
  end.

Definition isUpdate (i : input) : bool :=
  match i with CallUpdateTargetWords _ => true | _ => false end.

(** The indices for which [onWordMatch] was invoked, in order. *)
Definition firedIndices (out : list callback) : list nat :=
  omap (λ c, match c with onWordMatch m => Some (index m) | _ => None end) out.

Definition matchedOf (s : session) : gset nat :=
  match s with Inert => ∅ | Live _ matchedIndices _ => matchedIndices end.

End Continuous.

End Speech.

(** ** [src/app/child/[id]/flashcards.tsx]: the flashcard session

    The component keeps its session in React state. The embedding makes
    that state a record, each handler a function on it, and the callback
    handed to [setTimeout] a value [Pending] holding what its closure
    captured. The list of eligible words [childWords], the settings of the
    child and the outcome of the random shuffles are the environment of a
    session. Effects run to completion between two events. *)

Module Flashcards.

Inductive WordStatus := new | learning | mastered.

Global Instance WordStatus_eq_dec : EqDecision WordStatus.
Proof. solve_decision. Defined.

Record Word := mkWord {
  id : string;
  childId : string;
  word : string;
  firstSeen : string;
  lastSeen : string;
  totalOccurrences : Z;
  sessionsSeenCount : Z;
  status : WordStatus;
  masteryCorrectCount : Z;
  incorrectCount : Z;
  lastTested : option string
}.

(** The settings of a child read by the screen. *)
Record Child := mkChild {
  masteryThreshold : Z;
  timerSeconds : Z;
  demoteOnMiss : bool
}.

(** [interface WordProgress]; [wordRef] is its field [word], the Word
    object shared with the word store. *)
Record WordProgress := mkWordProgress {
  wordRef : Word;
  sessionCorrectCount : Z;
  totalAttempts : Z
}.

Inductive Feedback := correct | incorrect.

(** The closure of the callback of [setTimeout] in [handleAnswer]. *)
Record Pending := mkPending {
  p_isCorrect : bool;
  p_queue : list string;
  p_masteredIds : list string;
  p_currentWordId : string;
  p_sessionCorrectCount : Z
}.

Record State := mkState {
  wordProgress : gmap string WordProgress;
  queue : list string;
  masteredIds : list string;
  showFeedback : option Feedback;
  isComplete : bool;
  timeLeft : Z;
  isPaused : bool;
  (** callbacks handed to [setTimeout] that have not run yet, oldest first *)
  pendingTimeouts : list Pending;
  (** the words handed to [updateWord], latest first *)
  saved : list Word;
  (** the number of shuffles drawn so far *)
  shuffles : nat
}.

(** [shuffle n ids] is the outcome of the [n]-th
    [ids.sort(() => Math.random() - 0.5)] of the session. *)
Record Env := mkEnv {
  child : option Child;
  childWords : list Word;
  shuffle : nat → list string → list string
}.

(** [child?.masteryThreshold || 4] and [child?.timerSeconds || 7] *)
Definition sessionThreshold (env : Env) : Z :=
  match child env with
  | Some c => if (masteryThreshold c =? 0)%Z then 4%Z else masteryThreshold c
  | None => 4%Z
  end.

Definition sessionTimer (env : Env) : Z :=
  match child env with
  | Some c => if (timerSeconds c =? 0)%Z then 7%Z else timerSeconds c
  | None => 7%Z
  end.

(** [child?.demoteOnMiss] as a condition *)
Definition sessionDemote (env : Env) : bool :=
  match child env with
  | Some c => demoteOnMiss c
  | None => false
  end.

Definition childWordIds (env : Env) : list string := id <$> childWords env.

(** The values of the [useState] calls at mount. *)
Definition initialState (env : Env) : State :=
  {| wordProgress := ∅; queue := []; masteredIds := []; showFeedback := None;
     isComplete := false; timeLeft := sessionTimer env; isPaused := false;
     pendingTimeouts := []; saved := []; shuffles := 0 |}.

(** The state setters, and the three effects on the world outside the
    component: [updateWord], [setTimeout] and a random shuffle. *)
Definition setWordProgress (v : gmap string WordProgress) (s : State) : State :=
  {| wordProgress := v; queue := queue s; masteredIds := masteredIds s;
     showFeedback := showFeedback s; isComplete := isComplete s; timeLeft := timeLeft s;
     isPaused := isPaused s; pendingTimeouts := pendingTimeouts s; saved := saved s;
     shuffles := shuffles s |}.

Definition setQueue (v : list string) (s : State) : State :=
  {| wordProgress := wordProgress s; queue := v; masteredIds := masteredIds s;
     showFeedback := showFeedback s; isComplete := isComplete s; timeLeft := timeLeft s;
     isPaused := isPaused s; pendingTimeouts := pendingTimeouts s; saved := saved s;
     shuffles := shuffles s |}.

Definition setMasteredIds (v : list string) (s : State) : State :=
  {| wordProgress := wordProgress s; queue := queue s; masteredIds := v;
     showFeedback := showFeedback s; isComplete := isComplete s; timeLeft := timeLeft s;
     isPaused := isPaused s; pendingTimeouts := pendingTimeouts s; saved := saved s;
     shuffles := shuffles s |}.

Definition setShowFeedback (v : option Feedback) (s : State) : State :=
  {| wordProgress := wordProgress s; queue := queue s; masteredIds := masteredIds s;
     showFeedback := v; isComplete := isComplete s; timeLeft := timeLeft s;
     isPaused := isPaused s; pendingTimeouts := pendingTimeouts s; saved := saved s;
     shuffles := shuffles s |}.

Definition setIsComplete (v : bool) (s : State) : State :=
  {| wordProgress := wordProgress s; queue := queue s; masteredIds := masteredIds s;
     showFeedback := showFeedback s; isComplete := v; timeLeft := timeLeft s;
     isPaused := isPaused s; pendingTimeouts := pendingTimeouts s; saved := saved s;
     shuffles := shuffles s |}.

Definition setTimeLeft (v : Z) (s : State) : State :=
  {| wordProgress := wordProgress s; queue := queue s; masteredIds := masteredIds s;
     showFeedback := showFeedback s; isComplete := isComplete s; timeLeft := v;
     isPaused := isPaused s; pendingTimeouts := pendingTimeouts s; saved := saved s;
     shuffles := shuffles s |}.

Definition setIsPaused (v : bool) (s : State) : State :=
  {| wordProgress := wordProgress s; queue := queue s; masteredIds := masteredIds s;
     showFeedback := showFeedback s; isComplete := isComplete s; timeLeft := timeLeft s;
     isPaused := v; pendingTimeouts := pendingTimeouts s; saved := saved s;
     shuffles := shuffles s |}.

Definition updateWord (w : Word) (s : State) : State :=
  {| wordProgress := wordProgress s; queue := queue s; masteredIds := masteredIds s;
     showFeedback := showFeedback s; isComplete := isComplete s; timeLeft := timeLeft s;
     isPaused := isPaused s; pendingTimeouts := pendingTimeouts s; saved := w :: saved s;
     shuffles := shuffles s |}.

Definition setTimeout (p : Pending) (s : State) : State :=
  {| wordProgress := wordProgress s; queue := queue s; masteredIds := masteredIds s;
     showFeedback := showFeedback s; isComplete := isComplete s; timeLeft := timeLeft s;
     isPaused := isPaused s; pendingTimeouts := pendingTimeouts s ++ [p]; saved := saved s;
     shuffles := shuffles s |}.

Definition dropPending (s : State) : State :=
  {| wordProgress := wordProgress s; queue := queue s; masteredIds := masteredIds s;
     showFeedback := showFeedback s; isComplete := isComplete s; timeLeft := timeLeft s;
     isPaused := isPaused s; pendingTimeouts := tail (pendingTimeouts s); saved := saved s;
     shuffles := shuffles s |}.

(** [setQueue(ids.sort(() => Math.random() - 0.5))] *)
Definition setQueueShuffled (env : Env) (ids : list string) (s : State) : State :=
  {| wordProgress := wordProgress s; queue := shuffle env (shuffles s) ids;
     masteredIds := masteredIds s; showFeedback := showFeedback s;
     isComplete := isComplete s; timeLeft := timeLeft s; isPaused := isPaused s;
     pendingTimeouts := pendingTimeouts s; saved := saved s;
     shuffles := S (shuffles s) |}.

(** The effect [Initialize session]. *)
Definition initSession (env : Env) (s : State) : State :=
  match childWords env with
  | [] => s
  | _ :: _ =>
      let progress :=
        foldl (λ progress w, <[id w := mkWordProgress w 0 0]> progress) ∅ (childWords env) in
      setTimeLeft (sessionTimer env)
        (setQueueShuffled env (childWordIds env)
           (setWordProgress progress s))
  end.

(** [queue[0]]; the empty id is falsy. *)
Definition currentWordId (s : State) : option string := head (queue s).

Definition currentProgress (s : State) : option WordProgress :=
  match currentWordId s with
  | Some wid => if decide (wid = EmptyString) then None else wordProgress s !! wid
  | None => None
  end.

Definition currentWord (s : State) : option Word := wordRef <$> currentProgress s.

(** The block [Update word in storage]: the Word object is changed in
    place and then handed to [updateWord]. *)
Definition updateStoredWord (env : Env) (now : string) (isCorrect : bool) (w : Word) : Word :=
  let count := if isCorrect then (masteryCorrectCount w + 1)%Z else masteryCorrectCount w in
  let status' :=
    if isCorrect then
      if (sessionThreshold env <=? count)%Z then mastered
      else if decide (status w = new) then learning
      else status w
    else if sessionDemote env && bool_decide (status w = mastered) then learning
    else status w in
  {| id := id w; childId := childId w; word := word w; firstSeen := firstSeen w;
     lastSeen := lastSeen w; totalOccurrences := totalOccurrences w;
     sessionsSeenCount := sessionsSeenCount w; status := status';
     masteryCorrectCount := count; incorrectCount := incorrectCount w;
     lastTested := Some now |}.

(** [handleAnswer], up to and including the call of [setTimeout]. *)
Definition handleAnswer (env : Env) (now : string) (isCorrect : bool) (s : State) : State :=
  match currentWordId s, currentProgress s with
  | Some wid, Some cp =>
      let updatedWordProg :=
        {| wordRef := updateStoredWord env now isCorrect (wordRef cp);
           sessionCorrectCount :=
             if isCorrect then (sessionCorrectCount cp + 1)%Z else sessionCorrectCount cp;
           totalAttempts := (totalAttempts cp + 1)%Z |} in
      setTimeout
        {| p_isCorrect := isCorrect; p_queue := queue s; p_masteredIds := masteredIds s;
           p_currentWordId := wid;
           p_sessionCorrectCount := sessionCorrectCount updatedWordProg |}
        (updateWord (wordRef updatedWordProg)
           (setWordProgress (<[wid := updatedWordProg]> (wordProgress s))
              (setShowFeedback (Some (if isCorrect then correct else incorrect)) s)))
  | _, _ => s
  end.

(** The callback of [setTimeout], run on the state of the moment with
    the values [p] captured by [handleAnswer]. *)
Definition feedbackTimeout (env : Env) (p : Pending) (s : State) : State :=
  let s1 := setTimeLeft (sessionTimer env) (setShowFeedback None s) in
  let newQueue := tail (p_queue p) in
  let wordJustMastered := (sessionThreshold env <=? p_sessionCorrectCount p)%Z in
  if wordJustMastered then
    let newMasteredIds := p_masteredIds p ++ [p_currentWordId p] in
    let s2 := setMasteredIds newMasteredIds s1 in
    if decide (length (childWords env) <= length newMasteredIds)%nat then
      setIsComplete true s2
    else if decide (newQueue = []) then
      setQueueShuffled env
        (id <$> filter (λ w, id w ∉ newMasteredIds) (childWords env)) s2
    else setQueue (filter (λ i, i ≠ p_currentWordId p) newQueue) s2
  else
    if decide (newQueue = []) then setQueue [p_currentWordId p] s1
    else
      let insertPos := Nat.min (length newQueue) 3 in
      setQueue (take insertPos newQueue ++ p_currentWordId p :: drop insertPos newQueue) s1.

Definition handleRestart (env : Env) (s : State) : State :=
  setTimeLeft (sessionTimer env)
    (setQueueShuffled env (childWordIds env)
       (setShowFeedback None
          (setMasteredIds []
             (setIsComplete false s)))).

(** Which of the four screens the component renders. *)
Inductive Screen := EmptyScreen | CompleteScreen | LoadingScreen | MainScreen.

Definition screen (env : Env) (s : State) : Screen :=
  match childWords env with
  | [] => EmptyScreen
  | _ :: _ =>
      if isComplete s then CompleteScreen
      else match currentWord s with
           | None => LoadingScreen
           | Some _ => MainScreen
           end
  end.

(** The countdown interval exists while the timer effect finds a current
    word, no feedback, no completion and no pause. *)
Definition timerRunning (s : State) : bool :=
  bool_decide (is_Some (currentWord s)) && bool_decide (showFeedback s = None)
  && negb (isComplete s) && negb (isPaused s).

(** What the user and the two timers can do to the screen. [now] is
    the value of [new Date().toISOString()] at that moment. *)
Inductive event :=
| PressAnswer (isCorrect : bool) (now : string)
| Tick (now : string)
| FeedbackElapsed
| PressRestart
| PressPause
| PressResume.

Definition step (env : Env) (s : State) (e : event) : State :=
  match e with
  | PressAnswer isCorrect now =>
      (* the two buttons are on the main screen, [disabled={showFeedback !== null}] *)
      match screen env s, showFeedback s with
      | MainScreen, None => handleAnswer env now isCorrect s
      | _, _ => s
      end
  | Tick now =>
      if timerRunning s then
        if (timeLeft s <=? 1)%Z then setTimeLeft 0 (handleAnswer env now false s)
        else setTimeLeft (timeLeft s - 1) s
      else s
  | FeedbackElapsed =>
      match pendingTimeouts s with
      | p :: _ => feedbackTimeout env p (dropPending s)
      | [] => s
      end
  | PressRestart =>
      match screen env s with
      | CompleteScreen => handleRestart env s
      | _ => s
      end
  | PressPause =>
      match screen env s with
      | MainScreen => setIsPaused (negb (isPaused s)) s
      | _ => s
      end
  | PressResume =>
      match screen env s with
      | MainScreen => if isPaused s then setIsPaused false s else s
      | _ => s
      end
  end.

Definition run (env : Env) (s : State) (events : list event) : State :=
  foldl (step env) s events.

(** The session as mounted: the initial state after the first effect. *)
Definition startSession (env : Env) : State := initSession env (initialState env).



(** What is assumed of a session: the eligible words have distinct,
    non-empty ids, and a shuffle permutes its argument. *)
Record wellFormed (env : Env) : Prop := {
  ids_distinct : NoDup (childWordIds env);
  ids_nonempty : ∀ i, i ∈ childWordIds env → i ≠ EmptyString;
  shuffle_permutes : ∀ n l, shuffle env n l ≡ₚ l
}.

End Flashcards.

(** ** The Match Evaluator as the specification words it

    The reference algorithm of section 4.1, written from its text and
    independently of the code above: membership in a group of the table
    instead of a lookup map, the recursive definition of the Levenshtein
    distance instead of a matrix, and the tolerance [floor(len * 0.35)]
    in exact arithmetic. *)

Module MatchSpec.
Import JsString.

Definition punctuation : list ascii := ["."; ","; "!"; "?"; "039"; "034"]%char.

Definition normalize (s : string) : string :=
  toLowerCase (trim (removeAll (λ c, bool_decide (c ∈ punctuation)) s)).

(** Two words are homophones when they are the same word or some group
    of the table holds both; case is ignored. *)
Definition inGroup (w : string) (group : list string) : bool :=
  bool_decide (toLowerCase w ∈ toLowerCase <$> group).

Definition homophones (a b : string) : bool :=
  bool_decide (toLowerCase a = toLowerCase b)
  || existsb (λ group, inGroup a group && inGroup b group) Speech.HOMOPHONES.

Definition tokens (s : string) : list string := split_ws s.

(** The Levenshtein distance by its defining recursion. *)
Fixpoint lev (s t : list ascii) : nat :=
  match s with
  | [] => length t
  | x :: s' =>
      (fix lev_s (t : list ascii) : nat :=
         match t with
         | [] => length s
         | y :: t' =>
             if decide (x = y) then lev s' t'
             else S (Nat.min (Nat.min (lev s' t') (lev_s t')) (lev s' t))
         end) t
  end.

Definition levenshtein (a b : string) : nat :=
  lev (String.list_ascii_of_string a) (String.list_ascii_of_string b).

(** [max(1, floor(len * 0.35))], in exact arithmetic *)
Definition maxDistance (target : string) : Z :=
  Z.max 1 (35 * Z.of_nat (String.length target) / 100).

Definition evaluate (spoken target : string) : bool :=
  let s := normalize spoken in
  let t := normalize target in
  bool_decide (s = t)
  || homophones s t
  || bool_decide (t ∈ tokens s)
  || existsb (λ token, homophones token t) (tokens s)
  || (Z.of_nat (levenshtein s t) <=? maxDistance t)%Z.

(** Edit scripts: [edits s t n] says that [s] becomes [t] by a script
    of [n] insertions, deletions and substitutions of one character. *)
Inductive edits : list ascii → list ascii → nat → Prop :=
| edits_nil : edits [] [] 0
| edits_keep c s t n : edits s t n → edits (c :: s) (c :: t) n
| edits_subst c d s t n : edits s t n → edits (c :: s) (d :: t) (S n)
| edits_delete c s t n : edits s t n → edits (c :: s) t (S n)
| edits_insert d s t n : edits s t n → edits s (d :: t) (S n).

End MatchSpec.

(** ** Invariant of the flashcard session *)

Module SessionInvariant.
Import Flashcards.


End SessionInvariant.

(** ** Definitions used to state the theorems *)

Module Auxiliary.
Import JsString Speech MatchSpec.

(** [related m w o]: the map [m] lists [o] among the homophones of [w]. *)
Definition related (m : gmap string (gset string)) (w o : string) : Prop :=
  ∃ hs, m !! w = Some hs ∧ o ∈ hs.

(** The distance of the prefix of length [i] of [b] and the prefix of
    length [j] of [a]. *)
Definition prefixDistance (a b : string) (i j : nat) : nat :=
  lev (take i (String.list_ascii_of_string b)) (take j (String.list_ascii_of_string a)).

(** The matrix while row [k] is being filled and holds its first
    [S m] cells: the rows above are complete, the rows below still are
    the one-cell rows of the first loop. *)
Definition stageRow (a b : string) (k m r : nat) : list nat :=
  if decide (r < k) then prefixDistance a b r <$> seq 0 (S (String.length a))
  else if decide (r = k) then prefixDistance a b r <$> seq 0 (S m)
  else [r].

Definition stage (a b : string) (k m : nat) : list (list nat) :=
  stageRow a b k m <$> seq 0 (S (String.length b)).

(** What one step may do to the matched set and which indices it may
    fire: the set only grows, and the indices fired are distinct, were
    not in the set before and are in it afterwards. *)
Definition firesOnce (before after : gset nat) (out : list Speech.Continuous.callback) : Prop :=
  before ⊆ after ∧ NoDup (Speech.Continuous.firedIndices out) ∧
  ∀ i, i ∈ Speech.Continuous.firedIndices out → (i ∉ before) ∧ (i ∈ after).

(** A string of [n] letters a. *)
Definition letters (n : nat) : string :=
  String.string_of_list_ascii (replicate n "a"%char).

(** A word as [addWords] creates it, and a session over words with the
    given ids in which the shuffles leave the order as it is. *)
Definition exampleWord (i : string) : Flashcards.Word :=
  Flashcards.mkWord i "child-1" i "2024-01-01" "2024-01-01" 1 1 Flashcards.new 0 0 None.

Definition exampleEnv (threshold : Z) (ids : list string) : Flashcards.Env :=
  Flashcards.mkEnv (Some (Flashcards.mkChild threshold 7 true))
    (exampleWord <$> ids) (λ _ l, l).

End Auxiliary.

(** ** Definitions used to state further properties *)

Module ExtraDefinitions.
Import JsString Speech.

(** [allChars p s]: every character of [s] satisfies [p]. *)
Fixpoint allChars (p : ascii → bool) (s : string) : bool :=
  match s with
  | EmptyString => true
  | String c s' => p c && allChars p s'
  end.

End ExtraDefinitions.

(** ** Definitions used to state further properties of the session *)

Module SessionMeasure.
Import Flashcards.







End SessionMeasure.

(** ** [lib/storage] ([src/unnamed/part_000]): the stored words

    The words are kept by [AsyncStorage] as the JSON text of an array
    under one key. The embedding makes the value under that key an
    optional list of words (none before the first write),
    [JSON.parse] the inverse of [JSON.stringify] on such lists, and each
    function a function on that value, given whether its read and its
    write resolve or reject. Calls do not overlap. *)

Module Storage.
Import Flashcards.

Definition Item := option (list Word).

Inductive IO := resolves | rejects.

(** [getItem]: a missing key and a failed read both give the empty
    list. *)
Definition getItem (r : IO) (item : Item) : list Word :=
  match r, item with
  | resolves, Some words => words
  | _, _ => []
  end.

(** [setItem]: a failed write is logged and leaves the value as it was. *)
Definition setItem (w : IO) (value : list Word) (item : Item) : Item :=
  match w with
  | resolves => Some value
  | rejects => item
  end.

(** [arr.findIndex(p)]; [None] stands for -1. *)
Fixpoint findIndex {A} (p : A → bool) (l : list A) : option nat :=
  match l with
  | [] => None
  | x :: l' => if p x then Some 0 else S <$> findIndex p l'
  end.

Definition getWords (r : IO) (item : Item) : list Word := getItem r item.

Definition getWordsByChild (r : IO) (cid : string) (item : Item) : list Word :=
  filter (λ w, childId w = cid) (getWords r item).

(** The body shared by [saveWord] and the loop of [saveWords]:
    overwrite the first word of that id, or push. *)
Definition put (word : Word) (words : list Word) : list Word :=
  match findIndex (λ w, bool_decide (id w = id word)) words with
  | Some index => <[index := word]> words
  | None => words ++ [word]
  end.

Definition saveWord (r w : IO) (word : Word) (item : Item) : Item :=
  setItem w (put word (getWords r item)) item.

Definition saveWords (r w : IO) (newWords : list Word) (item : Item) : Item :=
  setItem w (foldl (λ words word, put word words) (getWords r item) newWords) item.

(** [updateWordStatus]; [now] is [new Date().toISOString()]. Nothing is
    written when no word has the id. *)
Definition updateWordStatus (r w : IO) (now : string)
    (wordId : string) (status' : WordStatus) (isCorrect : bool) (item : Item) : Item :=
  let words := getWords r item in
  match findIndex (λ x, bool_decide (id x = wordId)) words with
  | Some index =>
      match words !! index with
      | Some word =>
          let word' :=
            {| id := id word; childId := childId word; word := Flashcards.word word;
               firstSeen := firstSeen word; lastSeen := lastSeen word;
               totalOccurrences := totalOccurrences word;
               sessionsSeenCount := sessionsSeenCount word;
               status := status';
               masteryCorrectCount :=
                 if isCorrect then (masteryCorrectCount word + 1)%Z
                 else masteryCorrectCount word;
               incorrectCount :=
                 if isCorrect then incorrectCount word
                 else (incorrectCount word + 1)%Z;
               lastTested := Some now |} in
          setItem w (<[index := word']> words) item
      | None => item
      end
  | None => item
  end.

End Storage.

(** ** [contexts/ChildrenContext] ([src/unnamed/part_002]): the words of
    the provider

    The provider keeps a copy [words] of the stored words in React
    state. [updateWord] writes a word to the store and replaces it in the
    copy; [addSession] extracts the words of a text. *)

Module ChildrenContext.
Import JsString Flashcards.

(** [prev.map(w => w.id === word.id ? word : w)] *)
Definition replaceWord (word : Word) (prev : list Word) : list Word :=
  (λ w, if bool_decide (id w = id word) then word else w) <$> prev.

(** [updateWord] on the stored value and the copy of the provider. *)
Definition updateWord (r w : Storage.IO) (word : Word)
    (st : Storage.Item * list Word) : Storage.Item * list Word :=
  (Storage.saveWord r w word st.1, replaceWord word st.2).

(** [a-z] *)
Definition isLowerLetter (c : ascii) : bool :=
  let n := N_of_ascii c in ((97 <=? n) && (n <=? 122))%N.

(** [s.replace(/[^a-z\s]/g, ' ')] *)
Fixpoint blankOthers (s : string) : string :=
  match s with
  | EmptyString => EmptyString
  | String c s' =>
      String (if isLowerLetter c || isWhiteSpace c then c else " "%char) (blankOthers s')
  end.

(** [wordList] of [addSession] *)
Definition wordList (extractedText : string) : list string :=
  filter (λ w, 1 < String.length w ∧ String.length w ≤ 15)
    (split_ws (blankOthers (toLowerCase extractedText))).

(** [set.add(w)] on the values of a [Set] in insertion order *)
Definition setAdd (values : list string) (w : string) : list string :=
  if bool_decide (w ∈ values) then values else values ++ [w].

(** [[...new Set(wordList)]] *)
Definition uniqueWords (extractedText : string) : list string :=
  foldl setAdd [] (wordList extractedText).

(** The texts of [newWords] in [addSession]: the unique words that are
    not in [existingWordSet]. *)
Definition newWordTexts (existingWords : list Word) (extractedText : string)
    : list string :=
  filter (λ wordText, wordText ∉ (λ w, toLowerCase (word w)) <$> existingWords)
    (uniqueWords extractedText).

End ChildrenContext.

(** * Theorems *)

#[local] Set Warnings "-clear-no-such-hyp".

(** ** The Levenshtein distance is the least cost of an edit script *)

Module LevFacts.
Import MatchSpec.

Lemma lev_nil_r s : lev s [] = length s.
Proof. by destruct s. Qed.

Lemma lev_cons x y s t :
  lev (x :: s) (y :: t) =
  if decide (x = y) then lev s t
  else S (Nat.min (Nat.min (lev s t) (lev (x :: s) t)) (lev s (y :: t))).
Proof. reflexivity. Qed.

Lemma edits_from_nil t : edits [] t (length t).
Proof. induction t; simpl; eauto using edits. Qed.

Lemma edits_to_nil s : edits s [] (length s).
Proof. induction s; simpl; eauto using edits. Qed.

(** The distance is the cost of some script. *)
Lemma lev_edits s t : edits s t (lev s t).
Proof.
  revert t. induction s as [|x s IHs]; intros t.
  { apply edits_from_nil. }
  induction t as [|y t IHt].
  { rewrite lev_nil_r. apply edits_to_nil. }
  rewrite lev_cons. case_decide as Hxy.
  - subst y. apply edits_keep, IHs.
  - destruct (Nat.min_spec (Nat.min (lev s t) (lev (x :: s) t)) (lev s (y :: t)))
      as [[_ ->]|[_ ->]].
    + destruct (Nat.min_spec (lev s t) (lev (x :: s) t)) as [[_ ->]|[_ ->]].
      * apply edits_subst, IHs.
      * apply edits_insert, IHt.
    + apply edits_delete, IHs.
Qed.

Lemma edits_lengths s t n : edits s t n → length t ≤ length s + n ∧ length s ≤ length t + n.
Proof. induction 1; simpl; lia. Qed.

(** Dropping the first character of either side costs at most one more edit. *)
Lemma edits_drop_target s d t n : edits s (d :: t) n → ∃ m, m ≤ S n ∧ edits s t m.
Proof.
  intros H. remember (d :: t) as u eqn:Hu. revert d t Hu.
  induction H as [|c s u n H IH|c e s u n H IH|c s u n H IH|e s u n H IH];
    intros d t Hu; simplify_eq.
  - exists (S n). split; [lia|]. by apply edits_delete.
  - exists (S n). split; [lia|]. by apply edits_delete.
  - destruct (IH d t eq_refl) as (m & Hm & He).
    exists (S m). split; [lia|]. by apply edits_delete.
  - exists n. split; [lia|done].
Qed.

Lemma edits_sym s t n : edits s t n → edits t s n.
Proof. induction 1; eauto using edits. Qed.

Lemma edits_drop_source c s t n : edits (c :: s) t n → ∃ m, m ≤ S n ∧ edits s t m.
Proof.
  intros H%edits_sym%edits_drop_target. destruct H as (m & Hm & He).
  exists m. split; [done|]. by apply edits_sym.
Qed.

(** No script is cheaper than the distance. *)
Lemma lev_least s t n : edits s t n → lev s t ≤ n.
Proof.
  remember (length s + length t) as k eqn:Hk.
  revert s t n Hk. induction (lt_wf k) as [k _ IH]. intros s t n -> H.
  destruct s as [|x s].
  { apply edits_lengths in H. simpl in *. lia. }
  destruct t as [|y t].
  { rewrite lev_nil_r. apply edits_lengths in H. simpl in *. lia. }
  rewrite lev_cons. case_decide as Hxy.
  - subst y. inversion H as [|? ? ? ? H'|? ? ? ? ? H'|? ? ? ? H'|? ? ? ? H']; subst.
    + eapply IH; [|reflexivity|exact H']. simpl; lia.
    + etrans; [eapply IH; [|reflexivity|exact H']|]; simpl; lia.
    + apply edits_drop_target in H' as (m & Hm & H').
      etrans; [eapply IH; [|reflexivity|exact H']|]; simpl; lia.
    + apply edits_drop_source in H' as (m & Hm & H').
      etrans; [eapply IH; [|reflexivity|exact H']|]; simpl; lia.
  - inversion H as [|? ? ? ? H'|? ? ? ? ? H'|? ? ? ? H'|? ? ? ? H']; subst.
    + done.
    + assert (lev s t ≤ n0) by (eapply IH; [|reflexivity|exact H']; simpl; lia). lia.
    + assert (lev s (y :: t) ≤ n0) by (eapply IH; [|reflexivity|exact H']; simpl; lia). lia.
    + assert (lev (x :: s) t ≤ n0) by (eapply IH; [|reflexivity|exact H']; simpl; lia). lia.
Qed.

Lemma lev_sym s t : lev s t = lev t s.
Proof.
  apply Nat.le_antisymm; apply lev_least, edits_sym, lev_edits.
Qed.

Lemma edits_snoc_keep c s t n : edits s t n → edits (s ++ [c]) (t ++ [c]) n.
Proof. induction 1; simpl; eauto using edits. Qed.

Lemma edits_snoc_subst c d s t n : edits s t n → edits (s ++ [c]) (t ++ [d]) (S n).
Proof. induction 1; simpl; eauto using edits. Qed.

Lemma edits_snoc_delete c s t n : edits s t n → edits (s ++ [c]) t (S n).
Proof. induction 1; simpl; eauto using edits. Qed.

Lemma edits_snoc_insert d s t n : edits s t n → edits s (t ++ [d]) (S n).
Proof. induction 1; simpl; eauto using edits. Qed.

Lemma edits_reverse s t n : edits s t n → edits (reverse s) (reverse t) n.
Proof.
  induction 1; rewrite ?reverse_cons;
    eauto using edits, edits_snoc_keep, edits_snoc_subst, edits_snoc_delete,
      edits_snoc_insert.
Qed.

Lemma lev_reverse s t : lev (reverse s) (reverse t) = lev s t.
Proof.
  apply Nat.le_antisymm.
  - apply lev_least, edits_reverse, lev_edits.
  - rewrite <- (reverse_involutive s), <- (reverse_involutive t) at 1.
    apply lev_least, edits_reverse, lev_edits.
Qed.

(** The recurrence read from the end of the two strings, as the matrix
    of the code is filled. *)
Lemma lev_snoc s t x y :
  lev (s ++ [x]) (t ++ [y]) =
  if decide (x = y) then lev s t
  else S (Nat.min (Nat.min (lev s t) (lev (s ++ [x]) t)) (lev s (t ++ [y]))).
Proof.
  rewrite <- (lev_reverse (s ++ [x]) (t ++ [y])), !reverse_snoc, lev_cons.
  rewrite <- (lev_reverse (s ++ [x]) t), <- (lev_reverse s (t ++ [y])), !reverse_snoc.
  by rewrite lev_reverse.
Qed.

End LevFacts.

(** ** The matrix of [levenshteinDistance] holds the distances of the prefixes *)

Module DistanceFacts.
Import JsString Speech MatchSpec LevFacts Auxiliary.

Lemma length_list_ascii (s : string) :
  String.length s = length (String.list_ascii_of_string s).
Proof. induction s; simpl; congruence. Qed.

Lemma charAt_lookup (s : string) i : charAt s i = String.list_ascii_of_string s !! i.
Proof.
  unfold charAt. revert i. induction s as [|c s IH]; intros [|i]; simpl; auto.
Qed.

Lemma prefixDistance_0_l a b j : j ≤ String.length a → prefixDistance a b 0 j = j.
Proof.
  intros Hj. unfold prefixDistance. rewrite take_0. simpl.
  rewrite length_take, <- length_list_ascii. lia.
Qed.

Lemma prefixDistance_0_r a b i : i ≤ String.length b → prefixDistance a b i 0 = i.
Proof.
  intros Hi. unfold prefixDistance. rewrite take_0, lev_nil_r.
  rewrite length_take, <- length_list_ascii. lia.
Qed.

Lemma prefixDistance_S_S a b i j :
  i < String.length b → j < String.length a →
  prefixDistance a b (S i) (S j) =
  if decide (charAt b i = charAt a j) then prefixDistance a b i j
  else Nat.min (Nat.min (prefixDistance a b i j + 1) (prefixDistance a b (S i) j + 1))
         (prefixDistance a b i (S j) + 1).
Proof.
  intros Hi Hj. unfold prefixDistance. rewrite !charAt_lookup.
  rewrite length_list_ascii in Hi, Hj.
  destruct (lookup_lt_is_Some_2 _ _ Hi) as [x Hx].
  destruct (lookup_lt_is_Some_2 _ _ Hj) as [y Hy].
  rewrite (take_S_r _ _ _ Hx), (take_S_r _ _ _ Hy), lev_snoc, Hx, Hy.
  destruct (decide (x = y)) as [->|Hne].
  - by rewrite decide_True.
  - rewrite decide_False by congruence. lia.
Qed.

Lemma stage_lookup a b k m r :
  r ≤ String.length b → stage a b k m !! r = Some (stageRow a b k m r).
Proof.
  intros Hr. unfold stage. rewrite list_lookup_fmap, lookup_seq_lt by lia. done.
Qed.

Lemma stage_lookup_ge a b k m r :
  String.length b < r → stage a b k m !! r = None.
Proof.
  intros Hr. unfold stage. rewrite list_lookup_fmap, lookup_seq_ge by lia. done.
Qed.

Lemma stage_ext a b k m k' m' :
  (∀ r, r ≤ String.length b → stageRow a b k m r = stageRow a b k' m' r) →
  stage a b k m = stage a b k' m'.
Proof.
  intros H. apply list_eq. intros r.
  destruct (decide (r ≤ String.length b)).
  - rewrite !stage_lookup by done. f_equal. by apply H.
  - rewrite !stage_lookup_ge by lia. done.
Qed.

Lemma initRows_spec b : initRows b = (λ i, [i]) <$> seq 0 (S (String.length b)).
Proof.
  unfold initRows. generalize (S (String.length b)) as n.
  induction n as [|n IH]; [done|].
  rewrite seq_S, foldl_snoc, IH, fmap_app. simpl.
  unfold arr_set. rewrite length_fmap, length_seq.
  rewrite decide_False by lia. by rewrite Nat.sub_diag.
Qed.

Lemma stage_initial a b : stage a b 0 0 = initRows b.
Proof.
  rewrite initRows_spec. unfold stage. apply list_fmap_ext. intros i r Hr.
  unfold stageRow. rewrite decide_False by lia.
  case_decide; [|done]. subst. simpl.
  by rewrite prefixDistance_0_l by lia.
Qed.

(** Reading a cell that has been written. *)
Lemma cell_stage_above a b k m r j :
  r < k → r ≤ String.length b → j ≤ String.length a →
  cell (stage a b k m) r j = prefixDistance a b r j.
Proof.
  intros Hrk Hr Hj. unfold cell.
  rewrite (list_lookup_total_correct _ _ _ (stage_lookup a b k m r Hr)).
  unfold stageRow. rewrite decide_True by done.
  apply list_lookup_total_correct.
  rewrite list_lookup_fmap, lookup_seq_lt by lia. done.
Qed.

Lemma cell_stage_current a b k m j :
  k ≤ String.length b → j ≤ m →
  cell (stage a b k m) k j = prefixDistance a b k j.
Proof.
  intros Hk Hj. unfold cell.
  rewrite (list_lookup_total_correct _ _ _ (stage_lookup a b k m k Hk)).
  unfold stageRow. rewrite decide_False, decide_True by lia.
  apply list_lookup_total_correct.
  rewrite list_lookup_fmap, lookup_seq_lt by lia. done.
Qed.

(** Writing the next cell of the current row. *)
Lemma setCell_stage a b k m :
  k ≤ String.length b →
  setCell k (S m) (prefixDistance a b k (S m)) (stage a b k m) = stage a b k (S m).
Proof.
  intros Hk. apply list_eq. intros r. unfold setCell.
  rewrite list_lookup_alter.
  destruct (decide (r ≤ String.length b)) as [Hr|Hr].
  - rewrite !stage_lookup by done. case_decide as Hkr.
    + subst r. simpl. f_equal. unfold stageRow.
      destruct (decide (k < k)) as [?|_]; [lia|].
      destruct (decide (k = k)) as [_|?]; [|done].
      unfold arr_set. rewrite length_fmap, length_seq.
      rewrite decide_False by lia.
      replace (S m - S m) with 0 by lia.
      rewrite (seq_S (S m)), fmap_app. done.
    + f_equal. unfold stageRow. repeat case_decide; try lia; done.
  - case_decide; [subst; lia|].
    by rewrite !stage_lookup_ge by lia.
Qed.

Lemma stage_next_row a b k :
  stage a b k (String.length a) = stage a b (S k) 0.
Proof.
  apply stage_ext. intros r Hr. unfold stageRow.
  repeat case_decide; try lia; try done.
  subst. simpl. by rewrite prefixDistance_0_r.
Qed.

Lemma initFirstRow_spec a b :
  initFirstRow a (initRows b) = stage a b 0 (String.length a).
Proof.
  unfold initFirstRow. rewrite <- (stage_initial a b).
  assert (∀ m, m ≤ String.length a →
    foldl (λ matrix j, setCell 0 j j matrix) (stage a b 0 0) (seq 0 (S m)) = stage a b 0 m)
    as H; [|by apply H].
  induction m as [|m IH]; intros Hm.
  - cbn [foldl seq]. apply list_eq. intros r. unfold setCell.
    rewrite list_lookup_alter.
    case_decide; [|done]. subst r. rewrite stage_lookup by lia.
    cbn [fmap option_fmap option_map]. f_equal.
  - rewrite seq_S, foldl_snoc, IH by lia. cbn [Nat.add].
    rewrite <- (prefixDistance_0_l a b (S m)) at 2 by lia.
    apply setCell_stage. lia.
Qed.

Lemma fillCell_stage a b k m :
  S k ≤ String.length b → m < String.length a →
  fillCell a b (S k) (stage a b (S k) m) (S m) = stage a b (S k) (S m).
Proof.
  intros Hk Hm. unfold fillCell. cbn [Nat.sub]. rewrite !Nat.sub_0_r.
  rewrite (cell_stage_above a b (S k) m k m), (cell_stage_above a b (S k) m k (S m)),
    (cell_stage_current a b (S k) m m) by lia.
  rewrite <- setCell_stage by lia.
  rewrite (prefixDistance_S_S a b k m) by lia.
  by case_decide.
Qed.

Lemma fillRow_stage a b k :
  S k ≤ String.length b →
  fillRow a b (stage a b (S k) 0) (S k) = stage a b (S k) (String.length a).
Proof.
  intros Hk. unfold fillRow.
  assert (∀ m, m ≤ String.length a →
    foldl (fillCell a b (S k)) (stage a b (S k) 0) (seq 1 m) = stage a b (S k) m)
    as H; [|by apply H].
  induction m as [|m IH]; intros Hm; [done|].
  rewrite seq_S, foldl_snoc, IH by lia. cbn [Nat.add]. by apply fillCell_stage.
Qed.

Lemma levenshteinMatrix_spec a b :
  levenshteinMatrix a b = stage a b (String.length b) (String.length a).
Proof.
  unfold levenshteinMatrix. rewrite initFirstRow_spec.
  assert (∀ n, n ≤ String.length b →
    foldl (fillRow a b) (stage a b 0 (String.length a)) (seq 1 n)
    = stage a b n (String.length a)) as H; [|by apply H].
  induction n as [|n IH]; intros Hn; [done|].
  rewrite seq_S, foldl_snoc, IH by lia. cbn [Nat.add].
  rewrite stage_next_row. by apply fillRow_stage.
Qed.

(** [levenshteinDistance] computes the Levenshtein distance. *)
Lemma levenshteinDistance_correct a b : levenshteinDistance a b = levenshtein a b.
Proof.
  unfold levenshteinDistance. rewrite levenshteinMatrix_spec.
  rewrite cell_stage_current by lia.
  unfold prefixDistance, levenshtein.
  rewrite !take_ge by (rewrite <- length_list_ascii; lia).
  apply lev_sym.
Qed.

(** It is the cost of a cheapest edit script from [a] to [b]. *)
Lemma levenshteinDistance_least_edits a b :
  edits (String.list_ascii_of_string a) (String.list_ascii_of_string b)
    (levenshteinDistance a b) ∧
  ∀ n, edits (String.list_ascii_of_string a) (String.list_ascii_of_string b) n →
       levenshteinDistance a b ≤ n.
Proof.
  rewrite levenshteinDistance_correct. split; [apply lev_edits|apply lev_least].
Qed.

End DistanceFacts.

(** ** The homophone map relates the words that share a group *)

Module HomophoneFacts.
Import JsString Speech MatchSpec Auxiliary.

Lemma addOther_dom word m other w :
  is_Some (addOther word m other !! w) ↔ is_Some (m !! w).
Proof.
  unfold addOther. case_decide; [|done].
  rewrite lookup_alter. case_decide; [|done]. subst.
  by rewrite fmap_is_Some.
Qed.

Lemma addOther_related word m other w o :
  related (addOther word m other) w o ↔
  related m w o ∨ (w = word ∧ o = other ∧ other ≠ word ∧ is_Some (m !! word)).
Proof.
  unfold addOther, related. case_decide as Hne.
  - rewrite lookup_alter. case_decide as Hw.
    + subst w. destruct (m !! word) as [hs|] eqn:Hm; simpl.
      * split.
        -- intros (hs' & [= <-] & Ho). apply elem_of_union in Ho as [Ho|Ho%elem_of_singleton].
           ++ left. eauto.
           ++ right. eauto.
        -- intros [(hs' & [= <-] & Ho)|(_ & -> & _ & _)];
             (eexists; split; [done|set_solver]).
      * split; [by intros (? & ? & ?)|].
        intros [(? & ? & ?)|(_ & _ & _ & [? ?])]; done.
    + split; [by left|]. intros [?|(-> & _)]; done.
  - split; [by left|]. intros [?|(_ & _ & ? & _)]; done.
Qed.

Lemma foldl_addOther_dom word others m w :
  is_Some (foldl (addOther word) m others !! w) ↔ is_Some (m !! w).
Proof.
  revert m. induction others as [|other others IH]; intros m; [done|].
  simpl. by rewrite IH, addOther_dom.
Qed.

Lemma foldl_addOther_related word others m w o :
  is_Some (m !! word) →
  related (foldl (addOther word) m others) w o ↔
  related m w o ∨ (w = word ∧ o ∈ others ∧ o ≠ word).
Proof.
  revert m. induction others as [|other others IH]; intros m Hm; simpl.
  - split; [by left|]. intros [?|(_ & ?%elem_of_nil & _)]; done.
  - rewrite IH by (by apply addOther_dom). rewrite addOther_related.
    rewrite elem_of_cons. naive_solver.
Qed.

Lemma addWord_dom lowerGroup m word w :
  is_Some (addWord lowerGroup m word !! w) ↔ is_Some (m !! w) ∨ w = word.
Proof.
  unfold addWord. rewrite foldl_addOther_dom.
  destruct (m !! word) as [hs|] eqn:Hm.
  - split; [by left|]. intros [?| ->]; [done|]. by rewrite Hm.
  - rewrite lookup_insert. case_decide; subst.
    + split; [by right|]. by eexists.
    + split; [by left|]. by intros [?|?].
Qed.

Lemma addWord_related lowerGroup m word w o :
  related (addWord lowerGroup m word) w o ↔
  related m w o ∨ (w = word ∧ o ∈ lowerGroup ∧ o ≠ word).
Proof.
  unfold addWord. destruct (m !! word) as [hs|] eqn:Hm.
  - by rewrite foldl_addOther_related by (by rewrite Hm).
  - rewrite foldl_addOther_related by (by rewrite lookup_insert_eq).
    assert (related (<[word:=∅]> m) w o ↔ related m w o) as ->; [|done].
    unfold related. rewrite lookup_insert. case_decide; [|done]. subst.
    rewrite Hm. split; intros (hs & [= <-] & Ho). set_solver.
Qed.

Lemma foldl_addWord_related lowerGroup words m w o :
  related (foldl (addWord lowerGroup) m words) w o ↔
  related m w o ∨ (w ∈ words ∧ o ∈ lowerGroup ∧ o ≠ w).
Proof.
  revert m. induction words as [|word words IH]; intros m; simpl.
  - split; [by left|]. intros [?|(?%elem_of_nil & _)]; done.
  - rewrite IH, addWord_related, elem_of_cons. naive_solver.
Qed.

Lemma addGroup_related m group w o :
  related (addGroup m group) w o ↔
  related m w o ∨
  (w ∈ toLowerCase <$> group ∧ o ∈ toLowerCase <$> group ∧ o ≠ w).
Proof. unfold addGroup. apply foldl_addWord_related. Qed.

Lemma foldl_addGroup_related groups m w o :
  related (foldl addGroup m groups) w o ↔
  related m w o ∨
  ∃ group, group ∈ groups ∧
    w ∈ toLowerCase <$> group ∧ o ∈ toLowerCase <$> group ∧ o ≠ w.
Proof.
  revert m. induction groups as [|group groups IH]; intros m; simpl.
  - split; [by left|]. intros [?|(? & ?%elem_of_nil & _)]; done.
  - rewrite IH, addGroup_related. setoid_rewrite elem_of_cons. naive_solver.
Qed.

(** The map built from a table relates exactly the distinct words of
    a common group. *)
Lemma buildHomophoneMap_related groups w o :
  related (buildHomophoneMap groups) w o ↔
  ∃ group, group ∈ groups ∧
    w ∈ toLowerCase <$> group ∧ o ∈ toLowerCase <$> group ∧ o ≠ w.
Proof.
  unfold buildHomophoneMap. rewrite foldl_addGroup_related.
  split; [|by right]. intros [(hs & Hm & _)|?]; [|done].
  by rewrite lookup_empty in Hm.
Qed.

(** [areHomophones] decides the homophone relation of the specification. *)
Lemma areHomophones_spec a b : areHomophones a b = homophones a b.
Proof.
  unfold areHomophones, homophones. case_decide as Heq.
  { by rewrite bool_decide_true. }
  rewrite bool_decide_false by done. rewrite orb_false_l.
  apply eq_true_iff_eq. rewrite existsb_exists.
  transitivity (related homophoneMap (toLowerCase a) (toLowerCase b)).
  - unfold related. destruct (homophoneMap !! toLowerCase a) as [hs|].
    + rewrite bool_decide_eq_true. naive_solver.
    + split; [done|]. by intros (? & ? & ?).
  - unfold homophoneMap. rewrite buildHomophoneMap_related.
    split.
    + intros (g & Hg & Ha & Hb & _). exists g.
      split; [by apply list_elem_of_In|].
      unfold inGroup. by rewrite !bool_decide_true.
    + intros (g & Hg%list_elem_of_In & Hin).
      apply andb_true_iff in Hin as [Ha%bool_decide_eq_true Hb%bool_decide_eq_true].
      exists g. eauto.
Qed.

End HomophoneFacts.

(** ** The matcher against the reference algorithm *)

Module MatchFacts.
Import JsString Speech MatchSpec Auxiliary.

(** The literal [0.35] is the double nearest to 35/100: its mantissa
    has 53 bits and is within half a unit of [0.35 * 2^54]. *)
Lemma mantissa_035_nearest :
  (2 ^ 52 <= mantissa_035 < 2 ^ 53)%Z ∧
  (Z.abs (100 * mantissa_035 - 35 * 2 ^ 54) * 2 <= 100)%Z.
Proof. vm_compute. split; [split|]; congruence. Qed.

(** Below 180 the rounded product has the integer part of the exact one. *)
Lemma floor_mul_035_exact n :
  n < 180 → floor_mul_035 (Z.of_nat n) = (35 * Z.of_nat n / 100)%Z.
Proof.
  intros Hn.
  assert (forallb (λ k, (floor_mul_035 (Z.of_nat k) =? 35 * Z.of_nat k / 100)%Z)
            (seq 0 180) = true) as H by (vm_compute; reflexivity).
  rewrite forallb_forall in H. apply Z.eqb_eq, H, in_seq. lia.
Qed.

(** At 180 it does not: [180 * 0.35] is [62.99999999999999]. *)
Lemma floor_mul_035_180 : floor_mul_035 180 = 62%Z ∧ (35 * 180 / 100 = 63)%Z.
Proof. split; vm_compute; reflexivity. Qed.

Lemma clean_normalize s : clean s = normalize s.
Proof. reflexivity. Qed.

Lemma anyHomophone_existsb spokenWords cleanTarget :
  anyHomophone spokenWords cleanTarget
  = existsb (λ token, homophones token cleanTarget) spokenWords.
Proof.
  induction spokenWords as [|word rest IH]; [done|].
  simpl. rewrite HomophoneFacts.areHomophones_spec, IH.
  by destruct (homophones word cleanTarget).
Qed.

(** [checkWordMatch] is the reference algorithm for every target whose
    normalized form is shorter than 180 characters. *)
Lemma checkWordMatch_refines spoken target :
  String.length (normalize target) < 180 →
  checkWordMatch spoken target = evaluate spoken target.
Proof.
  intros Hlen. unfold checkWordMatch, evaluate. cbv zeta.
  change clean with normalize.
  set (s := normalize spoken). set (t := normalize target).
  rewrite HomophoneFacts.areHomophones_spec, anyHomophone_existsb,
    DistanceFacts.levenshteinDistance_correct.
  unfold maxAllowedDistance, maxDistance, tokens.
  rewrite (floor_mul_035_exact (String.length t)) by exact Hlen.
  case_decide as Heq.
  { by rewrite (bool_decide_true _ Heq). }
  rewrite (bool_decide_false _ Heq).
  destruct (homophones s t); [done|].
  destruct (bool_decide (t ∈ split_ws s)); [done|].
  destruct (existsb _ _); [done|].
  by destruct (_ <=? _)%Z.
Qed.

End MatchFacts.

(** ** Listening sessions *)

Module ListeningFacts.
Import JsString Speech Auxiliary.

Lemma deliver_stopped l e : deliver (stop l) e = [].
Proof. destruct l as [|t st]; [done|]. by destruct e. Qed.

Lemma stop_idempotent l : stop (stop l) = stop l.
Proof. by destruct l. Qed.

Lemma sessionStep_stopped l i :
  ∃ l', sessionStep (stop l) i = (stop l', []).
Proof.
  destruct i as [e| |w]; simpl.
  - exists l. by rewrite deliver_stopped.
  - exists l. by rewrite stop_idempotent.
  - exists (updateTargetWord l w). by destruct l.
Qed.

Lemma sessionRun_stopped l inputs : snd (sessionRun (stop l) inputs) = [].
Proof.
  revert l. induction inputs as [|i rest IH]; intros l; [done|].
  simpl. destruct (sessionStep_stopped l i) as [l' ->].
  specialize (IH l'). by destruct (sessionRun (stop l') rest).
Qed.

(** C9. After [stop()] on the handle returned by [startListening],
    whatever events the recognizer still sends (results, errors, end)
    and whatever else is called on the handle, none of [onMatch],
    [onNoMatch], [onError] and [onEnd] is invoked. *)
Theorem C9_no_callback_after_stop outcome targetWord before after :
  let session := fst (sessionRun (fst (startListening outcome targetWord)) before) in
  snd (sessionRun (stop session) after) = [].
Proof. intros session. apply sessionRun_stopped. Qed.

Import Continuous.

Lemma firedIndices_app out1 out2 :
  firedIndices (out1 ++ out2) = firedIndices out1 ++ firedIndices out2.
Proof. apply omap_app. Qed.

Lemma firesOnce_nil m : firesOnce m m [].
Proof. split; [done|]. split; [constructor|]. by intros i ?%elem_of_nil. Qed.

Lemma firesOnce_seq m1 m2 m3 out1 out2 :
  firesOnce m1 m2 out1 → firesOnce m2 m3 out2 → firesOnce m1 m3 (out1 ++ out2).
Proof.
  intros (Hsub1 & Hnd1 & Hf1) (Hsub2 & Hnd2 & Hf2).
  split; [set_solver|]. rewrite firedIndices_app. split.
  - apply NoDup_app. split; [done|]. split; [|done].
    intros i Hi1 Hi2. apply Hf1 in Hi1. apply Hf2 in Hi2. tauto.
  - intros i [Hi|Hi]%elem_of_app.
    + apply Hf1 in Hi. set_solver.
    + apply Hf2 in Hi. set_solver.
Qed.

Lemma fireMatches_firesOnce allMatches m :
  firesOnce m (fireMatches allMatches m).1 (fireMatches allMatches m).2.
Proof.
  revert m. induction allMatches as [|x rest IH]; intros m; simpl.
  { apply firesOnce_nil. }
  case_bool_decide as Hin; [apply IH|].
  specialize (IH ({[index x]} ∪ m)).
  destruct (fireMatches rest ({[index x]} ∪ m)) as [m' out]. simpl in *.
  destruct IH as (Hsub & Hnd & Hf).
  split; [set_solver|]. split.
  - apply NoDup_cons. split; [|done]. intros Hi%Hf. set_solver.
  - intros i [->|Hi%Hf]%elem_of_cons; set_solver.
Qed.

Lemma handleResult_firesOnce f targets m results :
  firesOnce m (handleResult f targets m results).1 (handleResult f targets m results).2.
Proof.
  unfold handleResult. destruct (lastAlternative results) as [[lastResult first]|].
  2: apply firesOnce_nil.
  set (all := collectMatches _ _ _ _ _ _).
  set (marked := match all, f with
                 | _ :: _, Some g => (list_to_set (g all) ∪ m, [onAllMatches all])
                 | _, _ => (m, [])
                 end).
  assert (firesOnce m marked.1 marked.2) as Hmarked.
  { subst marked. destruct all, f; simpl; try apply firesOnce_nil.
    split; [set_solver|]. split; [constructor|]. by intros i ?%elem_of_nil. }
  destruct marked as [m1 out1]. simpl in Hmarked.
  pose proof (fireMatches_firesOnce all m1) as Hfire.
  destruct (fireMatches all m1) as [m2 out2]. simpl in *.
  apply (firesOnce_seq m m m2 [onInterimResult _] (out1 ++ out2)).
  - split; [done|]. split; [constructor|]. by intros i ?%elem_of_nil.
  - by eapply firesOnce_seq.
Qed.

Lemma step_firesOnce f s i :
  isUpdate i = false →
  firesOnce (matchedOf s) (matchedOf (step f s i).1) (step f s i).2.
Proof.
  intros Hi. destruct s as [|targets m stopped]; [apply firesOnce_nil|].
  destruct i as [results|error|restart| |words|wordIndex]; simpl; try done.
  - destruct stopped; [apply firesOnce_nil|].
    pose proof (handleResult_firesOnce f targets m results) as H.
    by destruct (handleResult f targets m results).
  - destruct stopped; [apply firesOnce_nil|]. simpl.
    split; [done|]. split; [constructor|]. by intros i ?%elem_of_nil.
  - destruct stopped; [apply firesOnce_nil|].
    destruct restart; simpl; [|apply firesOnce_nil].
    split; [done|]. split; [constructor|]. by intros i ?%elem_of_nil.
  - apply firesOnce_nil.
  - split; [set_solver|]. split; [constructor|]. by intros i ?%elem_of_nil.
Qed.

Lemma run_firesOnce f s inputs :
  forallb (λ i, negb (isUpdate i)) inputs = true →
  firesOnce (matchedOf s) (matchedOf (run f s inputs).1) (run f s inputs).2.
Proof.
  revert s. induction inputs as [|i rest IH]; intros s Hno; simpl.
  { apply firesOnce_nil. }
  simpl in Hno. apply andb_true_iff in Hno as [Hi%negb_true_iff Hrest].
  pose proof (step_firesOnce f s i Hi) as H1.
  destruct (step f s i) as [s1 out1]. specialize (IH s1 Hrest).
  destruct (run f s1 rest) as [s2 out2]. simpl in *.
  by eapply firesOnce_seq.
Qed.

(** C10. During one continuous listening session, as long as
    [updateTargetWords] is not called, [onWordMatch] is invoked at most
    once for each index of a target word: the indices fired are
    distinct, an index already in [matchedIndices] (put there before
    [onWordMatch] fires or by [markWordMatched]) is never fired, and
    [matchedIndices] only grows. A call of [updateTargetWords] empties
    [matchedIndices] and installs the new words. *)
Theorem C10_each_index_fires_once f s inputs :
  forallb (λ i, negb (isUpdate i)) inputs = true →
  NoDup (firedIndices (run f s inputs).2) ∧
  (∀ i, i ∈ matchedOf s → i ∉ firedIndices (run f s inputs).2) ∧
  matchedOf s ⊆ matchedOf (run f s inputs).1 ∧
  ∀ targets matched stopped words,
    step f (Live targets matched stopped) (CallUpdateTargetWords words)
    = (Live words ∅ stopped, []).
Proof.
  intros Hno. destruct (run_firesOnce f s inputs Hno) as (Hsub & Hnd & Hf).
  split; [done|]. split; [|split; [done|done]].
  intros i Hi Hfired. apply Hf in Hfired. tauto.
Qed.

End ListeningFacts.

(** ** The flashcard session keeps its invariant *)

Module SessionFacts.
Import Flashcards SessionInvariant.





Lemma handleAnswer_unfold env now b s wid cp :
  currentWordId s = Some wid → currentProgress s = Some cp →
  handleAnswer env now b s =
  let updatedWordProg :=
    {| wordRef := updateStoredWord env now b (wordRef cp);
       sessionCorrectCount := if b then (sessionCorrectCount cp + 1)%Z
                              else sessionCorrectCount cp;
       totalAttempts := (totalAttempts cp + 1)%Z |} in
  setTimeout
    {| p_isCorrect := b; p_queue := queue s; p_masteredIds := masteredIds s;
       p_currentWordId := wid;
       p_sessionCorrectCount := sessionCorrectCount updatedWordProg |}
    (updateWord (wordRef updatedWordProg)
       (setWordProgress (<[wid := updatedWordProg]> (wordProgress s))
          (setShowFeedback (Some (if b then correct else incorrect)) s))).
Proof. intros Hw Hc. unfold handleAnswer. by rewrite Hw, Hc. Qed.











End SessionFacts.

(** ** One verdict and its feedback delay *)

Module CycleFacts.
Import Flashcards SessionInvariant SessionFacts.











End CycleFacts.

(** ** The claims about the flashcard session *)

Module SessionClaims.
Import Flashcards SessionInvariant SessionFacts CycleFacts Auxiliary.



















(** What [handleRestart] does for every session: a queue of exactly the
    eligible ids, no mastered ids, no feedback, and the progress map and
    the saved words as they were. *)
Lemma handleRestart_spec env s :
  wellFormed env →
  let s' := handleRestart env s in
  queue s' ≡ₚ childWordIds env ∧ masteredIds s' = [] ∧ isComplete s' = false ∧
  showFeedback s' = None ∧ timeLeft s' = sessionTimer env ∧
  wordProgress s' = wordProgress s ∧ saved s' = saved s.
Proof.
  intros Hwf. simpl. split; [apply (shuffle_permutes _ Hwf)|done].
Qed.




End SessionClaims.

(** ** The claims about the matcher and the listening sessions *)

Module SpeechClaims.
Import JsString Speech MatchSpec Auxiliary.

(** C1 fails on the code for long targets. The matcher is the reference
    algorithm for every target whose normalized form has fewer than 180
    characters ([MatchFacts.checkWordMatch_refines]), but the tolerance
    is computed in floating point: for a target of 180 letters
    [Math.floor(180 * 0.35)] is 62, not 63. A spoken string of 117
    letters a is at distance 63 from the target of 180 letters a: the
    reference algorithm accepts it, [checkWordMatch] rejects it. The
    three examples of the claim hold. *)
Theorem C1_tolerance_of_a_long_target :
  levenshteinDistance (letters 117) (letters 180) = 63 ∧
  maxAllowedDistance (clean (letters 180)) = 62%Z ∧
  maxDistance (normalize (letters 180)) = 63%Z ∧
  checkWordMatch (letters 117) (letters 180) = false ∧
  evaluate (letters 117) (letters 180) = true ∧
  checkWordMatch EmptyString "cat" = false ∧
  checkWordMatch "kat" "cat" = true ∧
  maxAllowedDistance (clean EmptyString) = 1%Z.
Proof. vm_compute. by repeat split. Qed.

(** Witness of C10: the word cat heard in two results in a row. *)
Lemma C10_witness :
  NoDup (Continuous.firedIndices
           (Continuous.run None (Continuous.Live ["cat"; "dog"] ∅ false)
              [Continuous.ResultIn
                 (Some [SpeechResult [Alternative (Some "the cat") None] false]);
               Continuous.ResultIn
                 (Some [SpeechResult [Alternative (Some "the cat sat") None] true])]).2).
Proof.
  exact (proj1 (ListeningFacts.C10_each_index_fires_once None
                  (Continuous.Live ["cat"; "dog"] ∅ false)
                  [Continuous.ResultIn
                     (Some [SpeechResult [Alternative (Some "the cat") None] false]);
                   Continuous.ResultIn
                     (Some [SpeechResult [Alternative (Some "the cat sat") None] true])]
                  eq_refl)).
Defined.

End SpeechClaims.

(** ** Further properties of the edit distance *)

Module DistanceExtras.
Import JsString Speech MatchSpec LevFacts DistanceFacts Auxiliary.

Lemma list_ascii_inj (a b : string) :
  String.list_ascii_of_string a = String.list_ascii_of_string b → a = b.
Proof.
  intros H. rewrite <- (String.string_of_list_ascii_of_string a),
    <- (String.string_of_list_ascii_of_string b). by rewrite H.
Qed.

Lemma edits_refl s : edits s s 0.
Proof. induction s; eauto using edits. Qed.

Lemma edits_zero s t : edits s t 0 → s = t.
Proof.
  intros H. remember 0 as n eqn:Hn. induction H; try done. f_equal. auto.
Qed.

(** Scripts compose: the cost of going through [t] is at most the sum. *)
Lemma edits_trans s t u n m :
  edits s t n → edits t u m → ∃ k, k ≤ n + m ∧ edits s u k.
Proof.
  intros H1 H2. revert s n H1.
  induction H2 as [|c t u m H2 IH|c d t u m H2 IH|c t u m H2 IH|d t u m H2 IH];
    intros s n H1.
  - exists n. split; [lia|done].
  - remember (c :: t) as ct eqn:Hct. revert c t Hct H2 IH.
    induction H1 as [|c' s t' n H1 IH1|c' e s t' n H1 IH1|c' s t' n H1 IH1|e s t' n H1 IH1];
      intros c t Hct H2 IH; simplify_eq.
    + destruct (IH _ _ H1) as (k & Hk & He). exists k. split; [lia|]. by apply edits_keep.
    + destruct (IH _ _ H1) as (k & Hk & He). exists (S k). split; [lia|].
      by apply edits_subst.
    + destruct (IH1 c t eq_refl H2 IH) as (k & Hk & He). exists (S k). split; [lia|].
      by apply edits_delete.
    + destruct (IH _ _ H1) as (k & Hk & He). exists (S k). split; [lia|].
      by apply edits_insert.
  - remember (c :: t) as ct eqn:Hct. revert c t Hct H2 IH.
    induction H1 as [|c' s t' n H1 IH1|c' e s t' n H1 IH1|c' s t' n H1 IH1|e s t' n H1 IH1];
      intros c t Hct H2 IH; simplify_eq.
    + destruct (IH _ _ H1) as (k & Hk & He). exists (S k). split; [lia|].
      by apply edits_subst.
    + destruct (IH _ _ H1) as (k & Hk & He). exists (S k). split; [lia|].
      by apply edits_subst.
    + destruct (IH1 c t eq_refl H2 IH) as (k & Hk & He). exists (S k). split; [lia|].
      by apply edits_delete.
    + destruct (IH _ _ H1) as (k & Hk & He). exists (S k). split; [lia|].
      by apply edits_insert.
  - apply edits_drop_target in H1 as (n' & Hn' & H1).
    destruct (IH _ _ H1) as (k & Hk & He). exists k. split; [lia|done].
  - destruct (IH _ _ H1) as (k & Hk & He). exists (S k). split; [lia|].
    by apply edits_insert.
Qed.

Lemma lev_triangle s t u : lev s u ≤ lev s t + lev t u.
Proof.
  destruct (edits_trans s t u _ _ (lev_edits s t) (lev_edits t u)) as (k & Hk & He).
  apply lev_least in He. lia.
Qed.

Lemma lev_upper s t : lev s t ≤ Nat.max (length s) (length t).
Proof.
  revert t. induction s as [|x s IH]; intros t; [simpl; lia|].
  destruct t as [|y t]; [rewrite lev_nil_r; lia|].
  rewrite lev_cons. specialize (IH t). case_decide; simpl; lia.
Qed.

(** X1. [levenshteinDistance(a, b)] is the least number of insertions,
    deletions and substitutions of one character that turn [a] into [b]:
    some edit script has that cost and none is cheaper. *)
Theorem X1_levenshteinDistance_least_edit_cost a b :
  edits (String.list_ascii_of_string a) (String.list_ascii_of_string b)
    (levenshteinDistance a b) ∧
  ∀ n, edits (String.list_ascii_of_string a) (String.list_ascii_of_string b) n →
       levenshteinDistance a b ≤ n.
Proof.
  rewrite levenshteinDistance_correct. split; [apply lev_edits|apply lev_least].
Qed.

(** X2. [levenshteinDistance] is a metric on strings: it is symmetric,
    it is zero exactly for equal strings, and it satisfies the triangle
    inequality. *)
Theorem X2_levenshteinDistance_metric a b c :
  levenshteinDistance a b = levenshteinDistance b a ∧
  (levenshteinDistance a b = 0 ↔ a = b) ∧
  levenshteinDistance a c ≤ levenshteinDistance a b + levenshteinDistance b c.
Proof.
  rewrite !levenshteinDistance_correct. unfold levenshtein. split; [apply lev_sym|].
  split; [|apply lev_triangle]. split.
  - intros H0. apply list_ascii_inj, edits_zero. rewrite <- H0. apply lev_edits.
  - intros ->. apply Nat.le_0_r, lev_least, edits_refl.
Qed.

(** X3. The distance lies between the difference of the two lengths and
    the larger of the two lengths; against the empty string it is the
    length of the other string. *)
Theorem X3_levenshteinDistance_bounds a b :
  String.length a - String.length b ≤ levenshteinDistance a b ∧
  String.length b - String.length a ≤ levenshteinDistance a b ∧
  levenshteinDistance a b ≤ Nat.max (String.length a) (String.length b) ∧
  levenshteinDistance EmptyString b = String.length b ∧
  levenshteinDistance a EmptyString = String.length a.
Proof.
  rewrite !levenshteinDistance_correct, !length_list_ascii. unfold levenshtein.
  pose proof (edits_lengths _ _ _ (lev_edits (String.list_ascii_of_string a)
                                     (String.list_ascii_of_string b))) as [H1 H2].
  split; [lia|]. split; [lia|]. split; [apply lev_upper|].
  split; [done|]. by rewrite lev_nil_r.
Qed.

End DistanceExtras.

(** ** Further properties of the matcher *)

Module MatchExtras.
Import JsString Speech MatchSpec Auxiliary ExtraDefinitions.

(** Facts about single characters, by inspection of the 256 code units. *)
Lemma lowerChar_idem c : lowerChar (lowerChar c) = lowerChar c.
Proof. by destruct c as [[] [] [] [] [] [] [] []]. Qed.

Lemma isWhiteSpace_lowerChar c : isWhiteSpace (lowerChar c) = isWhiteSpace c.
Proof. by destruct c as [[] [] [] [] [] [] [] []]. Qed.

Lemma isPunctuation_lowerChar c : isPunctuation (lowerChar c) = isPunctuation c.
Proof. destruct c as [[] [] [] [] [] [] [] []]; vm_compute; reflexivity. Qed.

Lemma toLowerCase_idem s : toLowerCase (toLowerCase s) = toLowerCase s.
Proof. induction s as [|c s IH]; simpl; [done|]. by rewrite lowerChar_idem, IH. Qed.

Lemma toLowerCase_empty s : toLowerCase s = EmptyString ↔ s = EmptyString.
Proof. by destruct s. Qed.

Lemma toLowerCase_removeAll s :
  toLowerCase (removeAll isPunctuation s) = removeAll isPunctuation (toLowerCase s).
Proof.
  induction s as [|c s IH]; simpl; [done|].
  rewrite isPunctuation_lowerChar. destruct (isPunctuation c); simpl; by rewrite IH.
Qed.

Lemma toLowerCase_trimStart s : toLowerCase (trimStart s) = trimStart (toLowerCase s).
Proof.
  induction s as [|c s IH]; simpl; [done|].
  rewrite isWhiteSpace_lowerChar. by destruct (isWhiteSpace c).
Qed.

Lemma toLowerCase_trimEnd s : toLowerCase (trimEnd s) = trimEnd (toLowerCase s).
Proof.
  induction s as [|c s IH]; simpl; [done|].
  rewrite <- IH, isWhiteSpace_lowerChar.
  destruct (trimEnd s) as [|d r]; simpl; [|done].
  by destruct (isWhiteSpace c).
Qed.

Lemma toLowerCase_trim s : toLowerCase (trim s) = trim (toLowerCase s).
Proof. unfold trim. by rewrite toLowerCase_trimEnd, toLowerCase_trimStart. Qed.

Lemma removeAll_allChars cls s : allChars (λ c, negb (cls c)) (removeAll cls s) = true.
Proof.
  induction s as [|c s IH]; simpl; [done|].
  destruct (cls c) eqn:Hc; simpl; [done|]. by rewrite Hc.
Qed.

Lemma removeAll_none cls s : allChars (λ c, negb (cls c)) s = true → removeAll cls s = s.
Proof.
  induction s as [|c s IH]; simpl; [done|].
  intros [Hc Hs]%andb_true_iff. apply negb_true_iff in Hc. rewrite Hc. by rewrite IH.
Qed.

Lemma trimStart_allChars p s : allChars p s = true → allChars p (trimStart s) = true.
Proof.
  induction s as [|c s IH]; simpl; [done|].
  intros [Hc Hs]%andb_true_iff. destruct (isWhiteSpace c); [by apply IH|].
  simpl. by rewrite Hc, Hs.
Qed.

Lemma trimEnd_allChars p s : allChars p s = true → allChars p (trimEnd s) = true.
Proof.
  induction s as [|c s IH]; simpl; [done|].
  intros [Hc Hs]%andb_true_iff. specialize (IH Hs).
  destruct (trimEnd s) as [|d r]; simpl in *.
  - destruct (isWhiteSpace c); simpl; [done|]. by rewrite Hc.
  - by rewrite Hc.
Qed.

Lemma trimEnd_idem s : trimEnd (trimEnd s) = trimEnd s.
Proof.
  induction s as [|c s IH]; simpl; [done|].
  destruct (trimEnd s) as [|d r] eqn:Ht.
  - destruct (isWhiteSpace c) eqn:Hc; simpl; [done|]. by rewrite Hc.
  - change (trimEnd (String c (String d r))) with
      (match trimEnd (String d r) with
       | EmptyString => if isWhiteSpace c then EmptyString else String c EmptyString
       | rest => String c rest
       end). by rewrite IH.
Qed.

(** [trimEnd] leaves a first character that is not whitespace in place. *)
Lemma trimEnd_head c s :
  isWhiteSpace c = false → ∃ r, trimEnd (String c s) = String c r.
Proof.
  intros Hc. simpl. destruct (trimEnd s); rewrite ?Hc; eauto.
Qed.

Lemma trimStart_head s :
  trimStart s = EmptyString ∨ ∃ c r, trimStart s = String c r ∧ isWhiteSpace c = false.
Proof.
  induction s as [|c s IH]; simpl; [by left|].
  destruct (isWhiteSpace c) eqn:Hc; [done|]. right. eauto.
Qed.

Lemma trim_idem s : trim (trim s) = trim s.
Proof.
  unfold trim. destruct (trimStart_head s) as [->|(c & r & -> & Hc)]; [done|].
  destruct (trimEnd_head c r Hc) as [r' Hr]. rewrite Hr.
  simpl trimStart. rewrite Hc. rewrite <- Hr. apply trimEnd_idem.
Qed.

(** Cleaning a cleaned string changes nothing. *)
Lemma clean_idem s : clean (clean s) = clean s.
Proof.
  unfold clean.
  rewrite <- toLowerCase_removeAll, <- toLowerCase_trim, toLowerCase_idem.
  f_equal. rewrite removeAll_none.
  - apply trim_idem.
  - unfold trim. apply trimEnd_allChars, trimStart_allChars, removeAll_allChars.
Qed.

(** X4. [areHomophones] holds exactly of two words that are the same up
    to case or that both occur, up to case, in one group of the table
    [HOMOPHONES]; it is reflexive and symmetric. *)
Theorem X4_areHomophones_same_group a b :
  (areHomophones a b = true ↔
   toLowerCase a = toLowerCase b ∨
   ∃ group, group ∈ HOMOPHONES ∧
     toLowerCase a ∈ toLowerCase <$> group ∧ toLowerCase b ∈ toLowerCase <$> group) ∧
  areHomophones a a = true ∧
  areHomophones a b = areHomophones b a.
Proof.
  assert (∀ x y, areHomophones x y = true ↔
    toLowerCase x = toLowerCase y ∨
    ∃ group, group ∈ HOMOPHONES ∧
      toLowerCase x ∈ toLowerCase <$> group ∧ toLowerCase y ∈ toLowerCase <$> group) as H.
  { intros x y. rewrite HomophoneFacts.areHomophones_spec. unfold homophones.
    rewrite orb_true_iff, bool_decide_eq_true, existsb_exists. unfold inGroup.
    split; (intros [?|(g & Hg & Hin)]; [by left|right; exists g]).
    - apply andb_true_iff in Hin as [?%bool_decide_eq_true ?%bool_decide_eq_true].
      by rewrite list_elem_of_In.
    - destruct Hin as [? ?]. rewrite <- list_elem_of_In.
      split; [done|]. by rewrite !bool_decide_true. }
  split; [apply H|]. split; [apply H; by left|].
  apply eq_true_iff_eq. rewrite !H. naive_solver.
Qed.

Lemma checkWordMatch_clean_args spoken target :
  checkWordMatch spoken target = checkWordMatch (clean spoken) (clean target).
Proof. unfold checkWordMatch. by rewrite !clean_idem. Qed.

(** X5. [checkWordMatch] looks at its arguments only through their
    cleaned forms: cleaning is idempotent, and replacing either argument
    by its cleaned form (without the punctuation, trimmed, in lower case)
    gives the same verdict. Two strings with the same cleaned form always
    match. *)
Theorem X5_checkWordMatch_cleaned spoken target :
  clean (clean spoken) = clean spoken ∧
  checkWordMatch spoken target = checkWordMatch (clean spoken) (clean target) ∧
  (clean spoken = clean target → checkWordMatch spoken target = true).
Proof.
  split; [apply clean_idem|]. split; [apply checkWordMatch_clean_args|].
  intros Heq. unfold checkWordMatch. by rewrite decide_True.
Qed.

(** Witness of X5: the same word in another case and with a full stop. *)
Lemma X5_witness : checkWordMatch " Cat. " "cat" = true.
Proof. exact (proj2 (proj2 (X5_checkWordMatch_cleaned " Cat. " "cat")) eq_refl). Defined.

(** Every pair of words of a group of the table matches, as listed,
    but for one. *)
Lemma homophone_table_matches :
  forallb (λ group,
    forallb (λ a, forallb (λ b,
      Bool.eqb (checkWordMatch a b) (negb (bool_decide ((a, b) = ("they're", "their")))))
      group) group) HOMOPHONES = true.
Proof. vm_compute. reflexivity. Qed.

(** X6. Two words of one homophone group match each other, in whatever
    case, punctuation and surrounding whitespace they are written, with
    one exception: they're spoken for the target their. The cleaning
    removes the apostrophe, theyre is not in the table, and its distance
    2 from their is above the tolerance 1 of a target of five letters.
    (The other entries with an apostrophe match by edit distance.) *)
Theorem X6_homophone_groups_match group a b spoken target :
  group ∈ HOMOPHONES → a ∈ group → b ∈ group →
  clean spoken = clean a → clean target = clean b →
  checkWordMatch spoken target = negb (bool_decide ((a, b) = ("they're", "their"))).
Proof.
  intros Hg Ha Hb Hs Ht.
  rewrite (checkWordMatch_clean_args spoken target), Hs, Ht.
  rewrite <- (checkWordMatch_clean_args a b).
  pose proof homophone_table_matches as H.
  rewrite forallb_forall in H. apply list_elem_of_In in Hg. specialize (H _ Hg).
  rewrite forallb_forall in H. apply list_elem_of_In in Ha. specialize (H _ Ha).
  rewrite forallb_forall in H. apply list_elem_of_In in Hb. specialize (H _ Hb).
  by apply Bool.eqb_prop in H.
Qed.

(** Witness of X6: They're! said for the target there. *)
Lemma X6_witness : checkWordMatch " They're! " "THERE" = true.
Proof.
  apply (X6_homophone_groups_match ["their"; "there"; "they're"] "they're" "there");
    compute_done.
Defined.


(** The rounded product is at most twice the exact one. *)
Lemma round53_le p : (0 <= p)%Z → (round53 p <= 2 * p)%Z.
Proof.
  intros Hp. unfold round53. destruct (Z.leb_spec (Z.log2 p + 1) 53) as [_|Hk]; [lia|].
  assert (0 < p)%Z as Hpos.
  { destruct (Z.eq_dec p 0) as [->|]; [|lia]. simpl in Hk. lia. }
  set (sh := (Z.log2 p + 1 - 53)%Z). assert (0 < sh)%Z as Hsh by (unfold sh; lia).
  rewrite !Z.shiftl_mul_pow2, Z.shiftr_div_pow2 by lia.
  assert (0 < 2 ^ sh)%Z as Hpow by (apply Z.pow_pos_nonneg; lia).
  assert (2 ^ sh <= p)%Z as Hle.
  { etrans; [|apply (Z.log2_spec p Hpos)]. apply Z.pow_le_mono_r; unfold sh; lia. }
  pose proof (Z.mul_div_le p (2 ^ sh) Hpow) as Hq.
  destruct (_ || _); nia.
Qed.

Lemma floor_mul_035_lt n : (1 <= n)%Z → (floor_mul_035 n < n)%Z.
Proof.
  intros Hn. unfold floor_mul_035. rewrite Z.shiftr_div_pow2 by lia.
  apply Z.div_lt_upper_bound; [done|].
  pose proof (round53_le (n * mantissa_035)) as H. unfold mantissa_035 in *.
  assert (round53 (n * 6305039478318694) <= 2 * (n * 6305039478318694))%Z by (apply H; lia).
  change (2 ^ 54)%Z with 18014398509481984%Z. lia.
Qed.

Lemma floor_mul_035_nonneg n : (0 <= n)%Z → (0 <= floor_mul_035 n)%Z.
Proof.
  intros Hn. unfold floor_mul_035. rewrite Z.shiftr_div_pow2 by lia.
  apply Z.div_pos; [|done]. unfold round53.
  destruct (Z.leb_spec (Z.log2 (n * mantissa_035) + 1) 53) as [_|Hk].
  { unfold mantissa_035. lia. }
  rewrite !Z.shiftl_mul_pow2, Z.shiftr_div_pow2 by lia.
  assert (0 <= n * mantissa_035 / 2 ^ (Z.log2 (n * mantissa_035) + 1 - 53))%Z.
  { apply Z.div_pos; [unfold mantissa_035; lia|]. apply Z.pow_pos_nonneg; lia. }
  assert (0 < 2 ^ (Z.log2 (n * mantissa_035) + 1 - 53))%Z by (apply Z.pow_pos_nonneg; lia).
  destruct (_ || _); nia.
Qed.

(** X7. The tolerance is never zero: whenever the cleaned spoken string
    becomes the cleaned target by at most one insertion, deletion or
    substitution of a character, [checkWordMatch] accepts. For every
    target the tolerance is at least 1 and smaller than the length of the
    cleaned target once that has two characters. *)
Theorem X7_one_edit_matches spoken target n :
  edits (String.list_ascii_of_string (clean spoken))
        (String.list_ascii_of_string (clean target)) n →
  n ≤ 1 →
  checkWordMatch spoken target = true ∧
  (1 <= maxAllowedDistance (clean target)
   <= Z.max 1 (Z.of_nat (String.length (clean target)) - 1))%Z.
Proof.
  intros He Hn. split.
  - apply (proj2 (DistanceFacts.levenshteinDistance_least_edits _ _)) in He.
    unfold checkWordMatch. cbv zeta. case_decide; [done|].
    destruct (areHomophones _ _); [done|]. destruct (bool_decide _); [done|].
    destruct (anyHomophone _ _); [done|].
    destruct (Z.leb_spec (Z.of_nat (levenshteinDistance (clean spoken) (clean target)))
                (maxAllowedDistance (clean target))); [done|].
    unfold maxAllowedDistance in *. lia.
  - unfold maxAllowedDistance.
    destruct (String.length (clean target)) as [|k]; [vm_compute; split; congruence|].
    pose proof (floor_mul_035_lt (Z.of_nat (S k))). lia.
Qed.

(** Witness of X7: one wrong letter. *)
Lemma X7_witness : checkWordMatch "kat" "cat" = true.
Proof.
  refine (proj1 (X7_one_edit_matches "kat" "cat" 1 _ (le_n 1))).
  apply edits_subst, edits_keep, edits_keep, edits_nil.
Defined.

Lemma areHomophones_empty t : t ≠ EmptyString → areHomophones EmptyString t = false.
Proof.
  intros Ht. destruct t as [|c t]; [done|].
  unfold areHomophones. change (toLowerCase EmptyString) with EmptyString.
  rewrite decide_False by done. reflexivity.
Qed.

(** X8. An empty transcript (or one that cleans to nothing) is accepted
    only for a target whose cleaned form has at most one character; for
    every longer target, whatever its length, it is rejected. *)
Theorem X8_empty_transcript target :
  checkWordMatch EmptyString target = bool_decide (String.length (clean target) ≤ 1).
Proof.
  unfold checkWordMatch. change (clean EmptyString) with EmptyString.
  set (t := clean target).
  destruct (decide (t = EmptyString)) as [Ht|Ht].
  { rewrite Ht. reflexivity. }
  rewrite decide_False by done.
  rewrite (areHomophones_empty t Ht).
  change (split_ws EmptyString) with [EmptyString].
  rewrite bool_decide_false by (intros ?%list_elem_of_singleton; done).
  simpl anyHomophone. rewrite (areHomophones_empty t Ht).
  rewrite DistanceFacts.levenshteinDistance_correct. unfold levenshtein.
  simpl lev. rewrite <- DistanceFacts.length_list_ascii.
  unfold maxAllowedDistance.
  destruct (String.length t) as [|[|k]] eqn:Hlen.
  - by destruct t.
  - reflexivity.
  - rewrite bool_decide_false by lia.
    pose proof (floor_mul_035_lt (Z.of_nat (S (S k)))).
    destruct (Z.leb_spec (Z.of_nat (S (S k))) (1 `max` floor_mul_035 (Z.of_nat (S (S k)))));
      [lia|done].
Qed.

End MatchExtras.

(** ** Further properties of the listening sessions *)

Module ListeningExtras.
Import JsString Speech Auxiliary ExtraDefinitions.

Lemma sessionRun_inert inputs : sessionRun Inert inputs = (Inert, []).
Proof.
  induction inputs as [|i rest IH]; [done|].
  simpl. destruct i; simpl; by rewrite IH.
Qed.

(** X9. When speech recognition is not available, or when starting the
    recognizer throws, [startListening] reports the failure at once,
    [onError] with a non-empty message and then [onEnd], and returns a
    handle on which nothing has any effect: no later event or call
    invokes a callback. When the recognizer starts, no callback is
    invoked by the call itself. *)
Theorem X9_startListening_fallback outcome targetWord :
  match outcome with
  | Started => startListening outcome targetWord = (Live targetWord false, [])
  | _ =>
      (∃ message, message ≠ EmptyString ∧
         (startListening outcome targetWord).2 = [onError message; onEnd]) ∧
      ∀ inputs,
        sessionRun (startListening outcome targetWord).1 inputs
        = ((startListening outcome targetWord).1, [])
  end.
Proof.
  destruct outcome as [|message|]; simpl; [| |done].
  - split; [|apply sessionRun_inert].
    by exists "Speech recognition not available".
  - split; [|apply sessionRun_inert].
    destruct message as [m|]; [|by exists "Failed to start recognition"].
    case_decide; [by exists "Failed to start recognition"|by exists m].
Qed.

(** X10. One [result] event invokes at most one callback of a listening
    session and never [onError] or [onEnd]. [onMatch] is invoked only
    when the session is not stopped and the first alternative of the last
    result matches the current target word; [onNoMatch] only when it does
    not match and that result is final. An interim result that does not
    match, an event without results and a last result without
    alternatives invoke nothing. After [updateTargetWord] results are
    matched against the new word. *)
Theorem X10_result_event_callbacks currentTarget stopped results newWord :
  let out := handleResult currentTarget stopped results in
  deliver (updateTargetWord (Live currentTarget stopped) newWord) (ResultEvent results)
  = handleResult newWord stopped results ∧
  length out ≤ 1 ∧
  (∀ r, onMatch r ∈ out →
        stopped = false ∧ isMatch r = true ∧
        checkWordMatch (transcript r) currentTarget = true) ∧
  (∀ r, onNoMatch r ∈ out →
        stopped = false ∧ isMatch r = false ∧
        checkWordMatch (transcript r) currentTarget = false ∧
        ∃ lastResult, last <$> results = Some (Some lastResult) ∧ isFinal lastResult = true) ∧
  (∀ c, c ∈ out → c ≠ onEnd ∧ ∀ e, c ≠ onError e) ∧
  (lastAlternative results = None → out = []).
Proof.
  intros out. split; [reflexivity|]. subst out. unfold handleResult.
  destruct stopped.
  { split_and!; try done; try (simpl; lia); by intros ? ?%elem_of_nil. }
  destruct (lastAlternative results) as [[lastResult first]|] eqn:Hlast.
  2: { split_and!; try done; try (simpl; lia); by intros ? ?%elem_of_nil. }
  assert (last <$> results = Some (Some lastResult)) as Hres.
  { unfold lastAlternative in Hlast. destruct results as [rs|]; [|done].
    destruct (last rs) as [lr|] eqn:Hl; [|done]. destruct (alternatives lr); [done|].
    simplify_eq. simpl. by rewrite Hl. }
  destruct (checkWordMatch (transcriptOf first) currentTarget) eqn:Hm.
  - split; [simpl; lia|]. split.
    { intros r Hr%list_elem_of_singleton. by simplify_eq. }
    split; [by intros r ?%list_elem_of_singleton|].
    split; [|done]. intros c Hc%list_elem_of_singleton. by subst c.
  - destruct (isFinal lastResult) eqn:Hfin.
    + split; [simpl; lia|]. split; [by intros r ?%list_elem_of_singleton|].
      split.
      { intros r ?%list_elem_of_singleton. simplify_eq. simpl.
        split_and!; try done. by exists lastResult. }
      split; [|done]. intros c Hc%list_elem_of_singleton. by subst c.
    + split_and!; try done; try (simpl; lia); by intros ? ?%elem_of_nil.
Qed.

Import Continuous.













End ListeningExtras.

(** ** Further properties of the flashcard session *)

Module SessionExtras.
Import Flashcards SessionInvariant SessionFacts CycleFacts SessionMeasure Auxiliary.

























Lemma setTimeLeft_handleAnswer env now b v s :
  handleAnswer env now b (setTimeLeft v s) = setTimeLeft v (handleAnswer env now b s).
Proof.
  unfold handleAnswer, currentProgress, currentWordId. simpl.
  destruct (head (queue s)) as [wid|]; [|done].
  destruct (decide (wid = EmptyString)); [done|].
  by destruct (wordProgress s !! wid).
Qed.

Lemma countdown env (nows : list string) : ∀ s,
  timerRunning s = true → timeLeft s = Z.of_nat (S (length nows)) →
  run env s (Tick <$> nows) = setTimeLeft 1 s.
Proof.
  induction nows as [|n nows IH]; intros s Hrun Hleft.
  - destruct s. simpl in *. by subst.
  - rewrite fmap_cons. unfold run in *. cbn [foldl step]. rewrite Hrun.
    destruct (Z.leb_spec (timeLeft s) 1) as [Hle|_]; [cbn [length] in *; lia|].
    rewrite IH; [done|done|]. cbn [timeLeft setTimeLeft length] in *. lia.
Qed.

Lemma timeout_stops_timer env now s :
  timerRunning s = true →
  timerRunning (setTimeLeft 0 (handleAnswer env now false s)) = false.
Proof.
  intros Hrun.
  assert (∃ wid cp, currentWordId s = Some wid ∧ currentProgress s = Some cp)
    as (wid & cp & Hw & Hcur).
  { revert Hrun. unfold timerRunning, currentWord.
    rewrite !andb_true_iff, bool_decide_eq_true. intros [[[[w Hw] _] _] _].
    apply fmap_Some in Hw as (cp & Hcp & _).
    destruct (currentWordId s) as [wid|] eqn:Hwid; [by eauto|].
    unfold currentProgress in Hcp. by rewrite Hwid in Hcp. }
  rewrite (handleAnswer_unfold _ _ _ _ _ _ Hw Hcur). unfold timerRunning. simpl.
  by rewrite andb_false_r.
Qed.

(** X17. The countdown: while a word is presented, with [n] seconds
    left ([n] at least one), the first [n - 1] ticks of the interval only
    count down, and the [n]-th records a miss of the current word, as
    the button for an incorrect answer would, and leaves zero seconds;
    a further tick changes nothing, for the interval is gone while the
    feedback is shown. *)
Theorem X17_countdown_ends_in_a_miss env s (nows : list string) (now later : string) :
  timerRunning s = true → timeLeft s = Z.of_nat (S (length nows)) →
  run env s (Tick <$> nows) = setTimeLeft 1 s ∧
  run env s ((Tick <$> nows) ++ [Tick now])
  = setTimeLeft 0 (handleAnswer env now false s) ∧
  run env s ((Tick <$> nows) ++ [Tick now; Tick later])
  = setTimeLeft 0 (handleAnswer env now false s).
Proof.
  intros Hrun Hleft.
  assert (step env (setTimeLeft 1 s) (Tick now)
          = setTimeLeft 0 (handleAnswer env now false s)) as Hlast.
  { cbn [step]. change (timerRunning (setTimeLeft 1 s)) with (timerRunning s).
    rewrite Hrun. simpl. by rewrite setTimeLeft_handleAnswer. }
  split_and!.
  - by apply countdown.
  - unfold run. rewrite foldl_app. fold (run env s (Tick <$> nows)).
    rewrite countdown by done. exact Hlast.
  - unfold run. rewrite foldl_app. fold (run env s (Tick <$> nows)).
    rewrite countdown by done. cbn [foldl]. rewrite Hlast. cbn [step].
    by rewrite timeout_stops_timer.
Qed.

(** Witness of X17: the timer of seven seconds at the start of a
    session. *)
Lemma X17_witness :
  run (exampleEnv 2 ["w1"]) (startSession (exampleEnv 2 ["w1"]))
    ((Tick <$> ["t1"; "t2"; "t3"; "t4"; "t5"; "t6"]) ++ [Tick "t7"])
  = setTimeLeft 0 (handleAnswer (exampleEnv 2 ["w1"]) "t7" false
                     (startSession (exampleEnv 2 ["w1"]))).
Proof.
  exact (proj1 (proj2 (X17_countdown_ends_in_a_miss (exampleEnv 2 ["w1"])
           (startSession (exampleEnv 2 ["w1"]))
           ["t1"; "t2"; "t3"; "t4"; "t5"; "t6"] "t7" "t8" eq_refl eq_refl))).
Defined.

(** X18. Without eligible words there is no session: nothing the user
    or a timer does changes the state of the screen, which stays as it
    was mounted and shows the empty screen. *)
Theorem X18_no_words_no_session env events :
  childWords env = [] →
  run env (startSession env) events = initialState env ∧
  screen env (run env (startSession env) events) = EmptyScreen.
Proof.
  intros Hws.
  assert (run env (startSession env) events = initialState env) as ->.
  { unfold startSession, initSession. rewrite Hws.
    induction events as [|e events IH]; [done|]. simpl.
    replace (step env (initialState env) e) with (initialState env); [done|].
    destruct e; simpl; unfold screen; rewrite ?Hws; done. }
  split; [done|]. unfold screen. by rewrite Hws.
Qed.

(** Witness of X18: a child without words. *)
Lemma X18_witness :
  run (exampleEnv 2 []) (startSession (exampleEnv 2 []))
    [PressAnswer true "t1"; Tick "t2"; FeedbackElapsed; PressRestart]
  = initialState (exampleEnv 2 []).
Proof.
  exact (proj1 (X18_no_words_no_session (exampleEnv 2 [])
                  [PressAnswer true "t1"; Tick "t2"; FeedbackElapsed; PressRestart]
                  eq_refl)).
Defined.









End SessionExtras.

(** ** Properties of the word store *)

Module StorageFacts.
Import Flashcards Storage ChildrenContext.

Lemma put_cons word x words :
  put word (x :: words) =
  if bool_decide (id x = id word) then word :: words else x :: put word words.
Proof.
  unfold put. simpl. case_bool_decide; [done|].
  by destruct (findIndex _ words).
Qed.

Lemma put_ids word words :
  id <$> put word words =
  if bool_decide (id word ∈ id <$> words) then id <$> words
  else (id <$> words) ++ [id word].
Proof.
  induction words as [|x words IH].
  - by rewrite bool_decide_eq_false_2 by by intros ?%elem_of_nil.
  - rewrite put_cons. destruct (bool_decide_reflect (id x = id word)) as [Hx|Hx].
    + rewrite bool_decide_eq_true_2 by (rewrite fmap_cons, Hx; by left).
      by rewrite !fmap_cons, Hx.
    + rewrite !fmap_cons, IH.
      destruct (bool_decide_reflect (id word ∈ id <$> words)) as [Hin|Hin].
      * by rewrite bool_decide_eq_true_2 by by right.
      * rewrite bool_decide_eq_false_2; [done|].
        intros [?|?]%elem_of_cons; [congruence|done].
Qed.

Lemma put_unknown word words :
  id word ∉ id <$> words → put word words = words ++ [word].
Proof.
  induction words as [|x words IH]; intros Hnot; [done|].
  rewrite put_cons. rewrite fmap_cons, not_elem_of_cons in Hnot.
  destruct Hnot as [Hx Hnot]. rewrite bool_decide_eq_false_2 by done.
  by rewrite IH.
Qed.

Lemma replaceWord_unknown word words :
  id word ∉ id <$> words → replaceWord word words = words.
Proof.
  induction words as [|x words IH]; intros Hnot; [done|].
  rewrite fmap_cons, not_elem_of_cons in Hnot. destruct Hnot as [Hx Hnot].
  unfold replaceWord in *. rewrite fmap_cons, IH by done.
  by rewrite bool_decide_eq_false_2.
Qed.

Lemma put_known word words :
  NoDup (id <$> words) → id word ∈ id <$> words →
  put word words = replaceWord word words.
Proof.
  induction words as [|x words IH]; intros Hnd Hin; [by apply elem_of_nil in Hin|].
  rewrite fmap_cons in Hnd, Hin. apply NoDup_cons in Hnd as [Hx Hnd].
  rewrite put_cons. unfold replaceWord. rewrite fmap_cons.
  fold (replaceWord word words). case_bool_decide as Hid.
  - rewrite replaceWord_unknown; [done|]. by rewrite <- Hid.
  - apply elem_of_cons in Hin as [?|Hin]; [congruence|]. by rewrite IH.
Qed.

Lemma put_NoDup word words : NoDup (id <$> words) → NoDup (id <$> put word words).
Proof.
  intros Hnd. rewrite put_ids. case_bool_decide as Hin; [done|].
  apply NoDup_app. split_and!; [done| |apply NoDup_singleton].
  intros i Hi ->%list_elem_of_singleton. done.
Qed.

Lemma elem_of_put word words x :
  NoDup (id <$> words) →
  x ∈ put word words ↔ x = word ∨ x ∈ words ∧ id x ≠ id word.
Proof.
  induction words as [|y words IH]; intros Hnd.
  - change (put word []) with [word]. rewrite list_elem_of_singleton. split; [by left|].
    intros [?|[?%elem_of_nil _]]; done.
  - rewrite fmap_cons in Hnd. apply NoDup_cons in Hnd as [Hy Hnd].
    rewrite put_cons. case_bool_decide as Hid.
    + rewrite !elem_of_cons. split.
      * intros [->|Hx]; [by left|]. right. split; [by right|].
        intros Heq. apply Hy. rewrite Hid, <- Heq. by apply list_elem_of_fmap_2.
      * intros [->|[[->|Hx] Hne]]; [by left|done|by right].
    + rewrite !elem_of_cons, IH by done. split.
      * intros [->|[->|[Hx Hne]]]; [right; split; [by left|done]|by left|].
        right. split; [by right|done].
      * intros [->|[[->|Hx] Hne]]; [right; by left|by left|]. right. right. done.
Qed.

Lemma put_idem word words : put word (put word words) = put word words.
Proof.
  induction words as [|x words IH].
  - change (put word []) with [word]. by rewrite put_cons, bool_decide_eq_true_2.
  - rewrite put_cons. case_bool_decide as Hid.
    + rewrite put_cons. by rewrite bool_decide_eq_true_2.
    + rewrite put_cons, bool_decide_eq_false_2 by done. by rewrite IH.
Qed.

(** X20. [saveWord] stores a word under its id: when the stored words
    have distinct ids and the read and the write succeed, afterwards the
    ids are still distinct, the stored words are the saved word and the
    former words of other ids, and saving the same word again changes
    nothing. *)
Theorem X20_saveWord_stores_by_id word item :
  NoDup (id <$> getWords resolves item) →
  let item' := saveWord resolves resolves word item in
  NoDup (id <$> getWords resolves item') ∧
  (∀ x, x ∈ getWords resolves item'
        ↔ x = word ∨ x ∈ getWords resolves item ∧ id x ≠ id word) ∧
  saveWord resolves resolves word item' = item'.
Proof.
  intros Hnd. simpl. split_and!.
  - by apply put_NoDup.
  - intros x. by apply elem_of_put.
  - unfold saveWord. simpl. by rewrite put_idem.
Qed.

(** Witness of X20: saving a changed copy of the first of two words. *)
Lemma X20_witness :
  NoDup (id <$> getWords resolves
           (saveWord resolves resolves
              (updateStoredWord (Auxiliary.exampleEnv 2 ["w1"; "w2"]) "t1" true
                 (Auxiliary.exampleWord "w1"))
              (Some [Auxiliary.exampleWord "w1"; Auxiliary.exampleWord "w2"]))).
Proof.
  apply (X20_saveWord_stores_by_id
           (updateStoredWord (Auxiliary.exampleEnv 2 ["w1"; "w2"]) "t1" true
              (Auxiliary.exampleWord "w1"))
           (Some [Auxiliary.exampleWord "w1"; Auxiliary.exampleWord "w2"])).
  compute_done.
Defined.

(** X21. [saveWords] is [saveWord] word by word: with reads and writes
    that succeed, saving a list of words at once leaves the same stored
    words as saving them one after the other. *)
Theorem X21_saveWords_one_by_one newWords item :
  getWords resolves (saveWords resolves resolves newWords item)
  = getWords resolves
      (foldl (λ item word, saveWord resolves resolves word item) item newWords).
Proof.
  unfold saveWords. cbn [setItem getWords getItem].
  revert item. induction newWords as [|word newWords IH]; intros item; [done|].
  cbn [foldl]. rewrite <- IH. done.
Qed.

(** X22. What a failure of [AsyncStorage] does. A write that fails
    leaves the stored value as it was, whatever the function. A read
    that fails is taken for an empty store: [saveWord] then replaces all
    stored words by the one saved, [saveWords] by the words saved, and
    [updateWordStatus] finds no word and writes nothing. *)
Theorem X22_storage_failures word newWords now wordId status' isCorrect item r :
  saveWord r rejects word item = item ∧
  saveWords r rejects newWords item = item ∧
  updateWordStatus r rejects now wordId status' isCorrect item = item ∧
  saveWord rejects resolves word item = Some [word] ∧
  saveWords rejects resolves newWords item
  = Some (foldl (λ words word, put word words) [] newWords) ∧
  ∀ w, updateWordStatus rejects w now wordId status' isCorrect item = item.
Proof.
  split_and!; try done.
  unfold updateWordStatus. cbv zeta.
  destruct (findIndex _ _); [|done]. by destruct (_ !! _).
Qed.

Lemma findIndex_None {A} (p : A → bool) (l : list A) :
  findIndex p l = None ↔ Forall (λ x, p x = false) l.
Proof.
  induction l as [|x l IH]; simpl; [done|]. rewrite Forall_cons.
  destruct (p x); [naive_solver|]. rewrite fmap_None. naive_solver.
Qed.

Lemma findIndex_Some {A} (p : A → bool) (l : list A) i :
  findIndex p l = Some i →
  ∃ x, l !! i = Some x ∧ p x = true ∧ ∀ j y, j < i → l !! j = Some y → p y = false.
Proof.
  revert i. induction l as [|x l IH]; intros i; simpl; [done|].
  destruct (p x) eqn:Hx.
  - intros [= <-]. exists x. split_and!; [done..|]. intros; lia.
  - intros (i' & Hi' & ->)%fmap_Some. destruct (IH i' Hi') as (y & Hy & Hp & Hbefore).
    exists y. split_and!; [done..|]. intros [|j] z Hj; simpl; [naive_solver|].
    apply Hbefore. lia.
Qed.

(** X23. [updateWordStatus], and with it [masterWord], which calls it
    with the status mastered and a correct answer: when the stored words
    have distinct ids and the read and the write succeed, an id that is
    not stored changes nothing; otherwise the ids and the places of all
    words are kept, the words of other ids are unchanged, and the word of
    that id gets the status and the date, one more correct or one more
    incorrect answer, and nothing else. *)
Theorem X23_updateWordStatus now wordId status' isCorrect item :
  NoDup (id <$> getWords resolves item) →
  let item' := updateWordStatus resolves resolves now wordId status' isCorrect item in
  (wordId ∉ id <$> getWords resolves item → item' = item) ∧
  id <$> getWords resolves item' = id <$> getWords resolves item ∧
  ∀ i x, getWords resolves item !! i = Some x →
    ∃ x', getWords resolves item' !! i = Some x' ∧
      if bool_decide (id x = wordId) then
        status x' = status' ∧ lastTested x' = Some now ∧
        masteryCorrectCount x'
        = (masteryCorrectCount x + if isCorrect then 1 else 0)%Z ∧
        incorrectCount x' = (incorrectCount x + if isCorrect then 0 else 1)%Z ∧
        childId x' = childId x ∧ word x' = word x ∧ firstSeen x' = firstSeen x ∧
        lastSeen x' = lastSeen x ∧ totalOccurrences x' = totalOccurrences x ∧
        sessionsSeenCount x' = sessionsSeenCount x
      else x' = x.
Proof.
  intros Hnd item'. subst item'. unfold updateWordStatus. cbv zeta.
  set (words := getWords resolves item) in *.
  destruct (findIndex _ words) as [index|] eqn:Hfind.
  - destruct (findIndex_Some _ _ _ Hfind) as (word & Hword & Hid & _).
    apply bool_decide_eq_true in Hid. rewrite Hword.
    cbn [setItem getWords getItem]. split_and!.
    + intros Hnot. exfalso. apply Hnot. rewrite <- Hid.
      apply list_elem_of_fmap_2. by eapply list_elem_of_lookup_2.
    + apply list_eq. intros j. rewrite !list_lookup_fmap.
      destruct (decide (j = index)) as [->|Hj].
      * rewrite list_lookup_insert_eq by by eapply lookup_lt_Some. by rewrite Hword.
      * by rewrite list_lookup_insert_ne.
    + intros j x Hx. destruct (decide (j = index)) as [->|Hj].
      * rewrite list_lookup_insert_eq by by eapply lookup_lt_Some.
        simplify_eq. eexists. split; [done|].
        rewrite bool_decide_eq_true_2 by done. simpl.
        split_and!; try done; destruct isCorrect; lia.
      * rewrite list_lookup_insert_ne by done. exists x. split; [done|].
        rewrite bool_decide_eq_false_2; [done|]. intros Hidx. apply Hj.
        eapply NoDup_lookup; [exact Hnd|..]; rewrite list_lookup_fmap.
        -- by rewrite Hx.
        -- rewrite Hword. simpl. by rewrite Hidx, Hid.
  - apply findIndex_None in Hfind. split_and!; [done..|].
    intros j x Hx. exists x. split; [done|].
    rewrite Forall_forall in Hfind. rewrite bool_decide_eq_false_2; [done|].
    intros Hidx. specialize (Hfind x (list_elem_of_lookup_2 _ _ _ Hx)).
    by apply bool_decide_eq_false in Hfind.
Qed.

(** Witness of X23: mastering the second of two stored words. *)
Lemma X23_witness :
  id <$> getWords resolves
    (updateWordStatus resolves resolves "t1" "w2" mastered true
       (Some [Auxiliary.exampleWord "w1"; Auxiliary.exampleWord "w2"]))
  = ["w1"; "w2"].
Proof.
  apply (X23_updateWordStatus "t1" "w2" mastered true
           (Some [Auxiliary.exampleWord "w1"; Auxiliary.exampleWord "w2"])).
  compute_done.
Defined.

(** X24. [updateWord] of the provider and the store: starting from a
    copy that equals the stored words, with distinct ids, the copy still
    equals the store after [updateWord] exactly when the id of the word
    was stored already; a word of an unknown id is added to the store
    and not to the copy. *)
Theorem X24_updateWord_copy_and_store word words :
  NoDup (id <$> words) →
  let st := ChildrenContext.updateWord resolves resolves word (Some words, words) in
  (getWords resolves st.1 = st.2 ↔ id word ∈ id <$> words) ∧
  (id word ∉ id <$> words → getWords resolves st.1 = words ++ [word] ∧ st.2 = words).
Proof.
  intros Hnd. simpl. split.
  - split.
    + intros Heq. destruct (decide (id word ∈ id <$> words)) as [|Hnot]; [done|].
      rewrite put_unknown, replaceWord_unknown in Heq by done.
      apply (f_equal length) in Heq. rewrite length_app in Heq. simpl in Heq. lia.
    + by apply put_known.
  - intros Hnot. by rewrite put_unknown, replaceWord_unknown.
Qed.

(** Witness of X24: a word that is stored. *)
Lemma X24_witness :
  getWords resolves
    (ChildrenContext.updateWord resolves resolves (Auxiliary.exampleWord "w1")
       (Some [Auxiliary.exampleWord "w1"; Auxiliary.exampleWord "w2"],
        [Auxiliary.exampleWord "w1"; Auxiliary.exampleWord "w2"])).1
  = (ChildrenContext.updateWord resolves resolves (Auxiliary.exampleWord "w1")
       (Some [Auxiliary.exampleWord "w1"; Auxiliary.exampleWord "w2"],
        [Auxiliary.exampleWord "w1"; Auxiliary.exampleWord "w2"])).2.
Proof.
  assert (NoDup (id <$> [Auxiliary.exampleWord "w1"; Auxiliary.exampleWord "w2"]))
    as Hnd by compute_done.
  apply (proj1 (X24_updateWord_copy_and_store (Auxiliary.exampleWord "w1")
                  [Auxiliary.exampleWord "w1"; Auxiliary.exampleWord "w2"] Hnd)).
  compute_done.
Defined.







End StorageFacts.

(** ** The words extracted from a text *)

Module ExtractionFacts.
Import JsString Flashcards ChildrenContext ExtraDefinitions.

Lemma allChars_append p a b :
  allChars p (String.append a b) = allChars p a && allChars p b.
Proof. induction a as [|c a IH]; simpl; [done|]. by rewrite IH, andb_assoc. Qed.

Lemma split_go_allChars p s : ∀ tok inrun,
  allChars p tok = true →
  allChars (λ c, isWhiteSpace c || p c) s = true →
  Forall (λ t, allChars p t = true) (split_go tok inrun s).
Proof.
  induction s as [|c s IH]; intros tok inrun Htok Hs; simpl.
  - by apply Forall_singleton.
  - simpl in Hs. apply andb_true_iff in Hs as [Hc Hs].
    destruct (isWhiteSpace c) eqn:Hws.
    + destruct inrun; [by apply IH|]. apply Forall_cons. split; [done|by apply IH].
    + apply IH; [|done]. rewrite allChars_append, Htok. simpl in *. by rewrite Hc.
Qed.

Lemma blankOthers_allChars s :
  allChars (λ c, isWhiteSpace c || isLowerLetter c) (blankOthers s) = true.
Proof.
  induction s as [|c s IH]; simpl; [done|]. rewrite IH, andb_true_r.
  destruct (isLowerLetter c) eqn:Hl; simpl; [by rewrite Hl, orb_true_r|].
  destruct (isWhiteSpace c) eqn:Hw; [by rewrite Hw|done].
Qed.

Lemma foldl_setAdd_spec (l : list string) : ∀ values,
  NoDup values →
  NoDup (foldl setAdd values l) ∧
  ∀ w, w ∈ foldl setAdd values l ↔ w ∈ values ∨ w ∈ l.
Proof.
  induction l as [|x l IH]; intros values Hnd; simpl.
  - split; [done|]. intros w. rewrite elem_of_nil. tauto.
  - destruct (IH (setAdd values x)) as [Hnd' Hin'].
    + unfold setAdd. case_bool_decide; [done|].
      apply NoDup_app. split_and!; [done| |apply NoDup_singleton].
      by intros i Hi ->%list_elem_of_singleton.
    + split; [done|]. intros w. rewrite Hin', elem_of_cons. unfold setAdd.
      case_bool_decide as Hx.
      * split; [tauto|]. intros [?|[->|?]]; tauto.
      * rewrite elem_of_app, list_elem_of_singleton. tauto.
Qed.

(** X26. The words that [addSession] takes from a text: each of the
    unique words is made of the letters a to z only and has two to
    fifteen of them, and none occurs twice; the new words are unique
    words whose text no word of the child has, case apart, so that there
    are at most as many new words as unique words. *)
Theorem X26_extracted_words existingWords extractedText :
  NoDup (uniqueWords extractedText) ∧
  (∀ w, w ∈ uniqueWords extractedText →
     allChars isLowerLetter w = true ∧ 2 ≤ String.length w ≤ 15) ∧
  NoDup (newWordTexts existingWords extractedText) ∧
  (∀ w, w ∈ newWordTexts existingWords extractedText ↔
     w ∈ uniqueWords extractedText ∧
     ∀ e, e ∈ existingWords → toLowerCase (word e) ≠ w) ∧
  length (newWordTexts existingWords extractedText)
    ≤ length (uniqueWords extractedText).
Proof.
  destruct (foldl_setAdd_spec (wordList extractedText) [] (NoDup_nil_2))
    as [Hnd Hin].
  split_and!.
  - exact Hnd.
  - intros w Hw. apply Hin in Hw as [?%elem_of_nil|Hw]; [done|].
    unfold wordList in Hw. apply list_elem_of_filter in Hw as [Hlen Hw].
    split; [|lia].
    pose proof (split_go_allChars isLowerLetter
                  (blankOthers (toLowerCase extractedText)) EmptyString false
                  eq_refl (blankOthers_allChars _)) as Hall.
    rewrite Forall_forall in Hall. by apply Hall.
  - unfold newWordTexts. by apply NoDup_filter.
  - intros w. unfold newWordTexts. rewrite list_elem_of_filter, list_elem_of_fmap.
    split.
    + intros [Hnot Hw]. split; [done|]. intros e He Heq. apply Hnot. by exists e.
    + intros [Hw Hnot]. split; [|done]. intros (e & -> & He). by apply (Hnot e).
  - unfold newWordTexts. apply length_filter.
Qed.

End ExtractionFacts.
